(** * memory_signature.hpp: byte-pattern signatures with wildcards

    A shallow embedding of [jm::memory_signature] and of the helpers in
    [jm::detail], followed by the properties of the wildcard resolver, of
    the three pattern notations and of [find].

    Conventions of the embedding.
    - Integral values ([Byte], [char], [unsigned char]) are [Z];
      [static_cast<unsigned char>] and every store into the
      [unsigned char] buffer is [uchar] (reduction modulo 256).
    - [std::bitset<256>] is a [Z] read with [Z.testbit]; the assignment
      [bits[i] = b] is [Z.setbit] or [Z.clearbit].
    - A [std::string] is a [string]; the characters of a hybrid pattern
      are taken by their code in 0..255, those of a mask by their value as
      plain [char].
    - Iterators over a caller's range are positions ([nat]); a
      dereference outside the range, a write outside an array and a
      thrown exception are outcomes of the [result] type. *)

From Stdlib Require Import ZArith String Ascii List Bool Lia Arith.
Import ListNotations.

Local Open Scope Z_scope.

(** ** Outcomes of fallible code *)

(** The two exceptions the header throws. *)
Inductive exception : Type :=
| range_error        (* "unable to find unused byte in the provided pattern" *)
| invalid_argument.  (* "pattern size did not match mask size" *)

(** Accesses the C++ standard leaves undefined. *)
Inductive undefined : Type :=
| mask_overrun     (* the mask iterator is dereferenced at or past its end *)
| tokens_overrun   (* [tokens] is accessed behind its two elements: written
                      through [tokens[n_tokens++]] with [n_tokens >= 2], or
                      read by [strtoul] *)
| range_overrun.   (* a range iterator is dereferenced or moved past [last] *)

Inductive result (A : Type) : Type :=
| Ok (a : A)
| Throw (e : exception)
| Undef (u : undefined).

Arguments Ok {A} a.
Arguments Throw {A} e.
Arguments Undef {A} u.

Definition bind {A B : Type} (r : result A) (k : A -> result B) : result B :=
  match r with
  | Ok a => k a
  | Throw e => Throw e
  | Undef u => Undef u
  end.

Notation "x <- r ;; k" := (bind r (fun x => k))
  (at level 61, r at next level, right associativity).
Notation "' p <- r ;; k" := (bind r (fun x => let p := x in k))
  (at level 61, p pattern, r at next level, right associativity).

(** ** Bytes and the presence set *)

Definition uchar (z : Z) : Z := z mod 256.

Definition bitset := Z.

Definition bitset_empty : bitset := 0.

(** [bits[i] = b] *)
Definition bitset_assign (bits : bitset) (i : Z) (b : bool) : bitset :=
  if b then Z.setbit bits i else Z.clearbit bits i.

(** [bits[i]] *)
Definition bitset_test (bits : bitset) (i : Z) : bool := Z.testbit bits i.

(** Characters of a [std::string], by code. *)
Definition char_code (c : ascii) : Z := Z.of_N (N_of_ascii c).

Definition chars (s : string) : list Z := map char_code (list_ascii_of_string s).

(** The value of a plain [char] in a comparison.  Whether plain [char] is
    signed is implementation-defined; it is on x86-64, where a character
    with code 128 or more has the value [code - 256]. *)
Definition CHAR_IS_SIGNED : bool := true.

Definition plain_char (c : ascii) : Z :=
  if CHAR_IS_SIGNED && (128 <=? char_code c) then char_code c - 256
  else char_code c.

Definition plain_chars (s : string) : list Z :=
  map plain_char (list_ascii_of_string s).

Definition SPACE : Z := 32.
Definition QMARK : Z := 63.

(** ** namespace detail *)

Module detail.

Section FindWildcard.
(** The comparator may carry state (the masked one owns an advancing
    mask iterator) and may fail when that iterator is dereferenced out
    of range. *)
Context {St : Type}.
Variable cmp : St -> Z -> result (bool * St).

(** [for (; first != last; ++first)
       bits[static_cast<unsigned char>( *first)] = cmp( *first);] *)
Fixpoint mark (st : St) (bits : bitset) (l : list Z) : result bitset :=
  match l with
  | [] => Ok bits
  | b :: l' =>
      ' (v, st') <- cmp st b ;;
      mark st' (bitset_assign bits (uchar b) v) l'
  end.

(** [for (auto i = 0; i < 256; ++i) if (!bits[i]) return i;]
    with [n] the number of values of [i] still to visit. *)
Fixpoint scan (bits : bitset) (i : Z) (n : nat) : option Z :=
  match n with
  | O => None
  | S n' => if bitset_test bits i then scan bits (i + 1) n' else Some i
  end.

Definition find_wildcard (st : St) (l : list Z) : result Z :=
  bits <- mark st bitset_empty l ;;
  match scan bits 0 256 with
  | Some i => Ok (uchar i)
  | None => Throw range_error
  end.
End FindWildcard.

(** The lambda of [find_wildcard_masked]:
    [[=](auto) mutable { return *mask_first++ != unk; }];
    its state is what is left of the mask. *)
Definition masked_cmp (unk : Z) (mask_first : list Z) (_ : Z)
  : result (bool * list Z) :=
  match mask_first with
  | [] => Undef mask_overrun
  | m :: rest => Ok (negb (m =? unk), rest)
  end.

(** [unk] is an [unsigned char] parameter. *)
Definition find_wildcard_masked (first mask_first : list Z) (unk : Z) : result Z :=
  find_wildcard (masked_cmp (uchar unk)) mask_first first.

(** The lambda of [find_wildcard_hybrid]:
    [[](auto b) { return !(b != ' ' && b != '?'); }] *)
Definition hybrid_cmp (_ : unit) (b : Z) : result (bool * unit) :=
  Ok (negb (negb (b =? SPACE) && negb (b =? QMARK)), tt).

Definition find_wildcard_hybrid (l : list Z) : result Z :=
  find_wildcard hybrid_cmp tt l.

End detail.

(** ** class memory_signature *)

(** [_pattern] is the list of the bytes stored in [[_pattern.get(), _end)]
    ([size()] is its length); [_wildcard] is the sentinel. *)
Record memory_signature : Type := mk_signature {
  _pattern : list Z;
  _wildcard : Z
}.

Definition size (sig : memory_signature) : nat := length (_pattern sig).

(** [masked_to_wildcard]: walks the pattern and the mask together. *)
Fixpoint masked_to_wildcard (first m_first : list Z) (unknown _wildcard : Z)
  : result (list Z) :=
  match first with
  | [] => Ok []
  | b :: first' =>
      match m_first with
      | [] => Undef mask_overrun
      | m :: m_first' =>
          rest <- masked_to_wildcard first' m_first' unknown _wildcard ;;
          Ok ((if negb (m =? unknown) then uchar b else _wildcard) :: rest)
      end
  end.

(** *** strtoul(nptr, nullptr, 16) *)

Definition NUL : Z := 0.

Definition isspace (c : Z) : bool := (c =? 32) || ((9 <=? c) && (c <=? 13)).

Definition hex_digit (c : Z) : option Z :=
  if (48 <=? c) && (c <=? 57) then Some (c - 48)
  else if (97 <=? c) && (c <=? 102) then Some (c - 87)
  else if (65 <=? c) && (c <=? 70) then Some (c - 55)
  else None.

Fixpoint skip_spaces (s : list Z) : list Z :=
  match s with
  | c :: s' => if isspace c then skip_spaces s' else s
  | [] => []
  end.

(** Longest run of hexadecimal digits, accumulated in base 16. *)
Fixpoint hex_digits (acc : Z) (s : list Z) : Z :=
  match s with
  | c :: s' =>
      match hex_digit c with
      | Some d => hex_digits (16 * acc + d) s'
      | None => acc
      end
  | [] => acc
  end.

Definition ULONG_MAX : Z := 2 ^ 64 - 1.

(** The value for a terminated C string; [s] is the string with its
    terminator removed: optional white space, an optional sign, an optional
    [0x] in front of a digit, then digits.  No digit gives 0; a minus sign
    negates in [unsigned long]. *)
Definition strtoul16 (s : list Z) : Z :=
  let s1 := skip_spaces s in
  let '(neg, s2) :=
    match s1 with
    | c :: r => if c =? 45 then (true, r) else if c =? 43 then (false, r) else (false, s1)
    | [] => (false, s1)
    end in
  let s3 :=
    match s2 with
    | z :: x :: d :: r =>
        if (z =? 48) && ((x =? 120) || (x =? 88)) &&
           match hex_digit d with Some _ => true | None => false end
        then d :: r else s2
    | _ => s2
    end in
  let v := hex_digits 0 s3 in
  if ULONG_MAX <? v then ULONG_MAX
  else if neg then (- v) mod (ULONG_MAX + 1) else v.

(** The call on an array that need not hold a terminator.  [strtoul]
    examines the characters at [nptr] one after the other, white space, an
    optional sign, an optional [0x] in front of a digit, then digits, and
    it examines none behind the first one that cannot go on with the
    number; a NUL is such a character.  [mem] is the array from [nptr] to
    its end: examining a character behind it is an access outside of the
    array. *)
Fixpoint strtoul_spaces (mem : list Z) : result (list Z) :=
  match mem with
  | [] => Undef tokens_overrun
  | c :: mem' => if isspace c then strtoul_spaces mem' else Ok mem
  end.

Definition strtoul_sign (mem : list Z) : bool * list Z :=
  match mem with
  | c :: r => if c =? 45 then (true, r) else if c =? 43 then (false, r) else (false, mem)
  | [] => (false, mem)
  end.

Definition strtoul_prefix (mem : list Z) : result (list Z) :=
  match mem with
  | [] => Undef tokens_overrun
  | z :: r =>
      if z =? 48 then
        match r with
        | [] => Undef tokens_overrun
        | x :: r' =>
            if (x =? 120) || (x =? 88) then
              match r' with
              | [] => Undef tokens_overrun
              | d :: _ =>
                  match hex_digit d with Some _ => Ok r' | None => Ok mem end
              end
            else Ok mem
        end
      else Ok mem
  end.

Fixpoint strtoul_digits (acc : Z) (mem : list Z) : result Z :=
  match mem with
  | [] => Undef tokens_overrun
  | c :: mem' =>
      match hex_digit c with
      | Some d => strtoul_digits (16 * acc + d) mem'
      | None => Ok acc
      end
  end.

(** The number behind white space and sign. *)
Definition strtoul_number (mem : list Z) : result Z :=
  s3 <- strtoul_prefix mem ;; strtoul_digits 0 s3.

Definition strtoul_mem (mem : list Z) : result Z :=
  s1 <- strtoul_spaces mem ;;
  v <- strtoul_number (snd (strtoul_sign s1)) ;;
  Ok (if ULONG_MAX <? v then ULONG_MAX
      else if fst (strtoul_sign s1) then (- v) mod (ULONG_MAX + 1) else v).

(** *** hybrid_to_wildcard *)

(** [char tokens[2]] *)
Definition tokens_t : Type := (Z * Z)%type.

(** [tokens[i] = c] *)
Definition tokens_store (tokens : tokens_t) (i : nat) (c : Z) : result tokens_t :=
  match i with
  | 0%nat => Ok (c, snd tokens)
  | 1%nat => Ok (fst tokens, c)
  | _ => Undef tokens_overrun
  end.

(** What [strtoul(tokens, nullptr, 16)] can read: the two elements of the
    array.  The array has no room for a terminator behind two characters;
    the source counts on [n_tokens] lying behind it ("do not move - will
    act as a delimiter for tokens"), which the language does not promise. *)
Definition tokens_mem (tokens : tokens_t) : list Z := [fst tokens; snd tokens].

(** The locals of the loop; [out] is what has been written through
    [my_pat] so far. *)
Record hybrid_state : Type := mk_hybrid_state {
  tokens : tokens_t;
  n_tokens : nat;
  prev_was_wildcard : bool;
  out : list Z
}.

Definition hybrid_init : hybrid_state :=
  mk_hybrid_state (NUL, NUL) 0 false [].

(** One iteration of the loop body on the character [c]. *)
Definition hybrid_step (_wildcard : Z) (st : hybrid_state) (c : Z)
  : result hybrid_state :=
  if c =? SPACE then
    if Nat.eqb (n_tokens st) 0 then
      Ok (mk_hybrid_state (tokens st) 0 false (out st))
    else
      v <- strtoul_mem (tokens_mem (tokens st)) ;;
      Ok (mk_hybrid_state (fst (tokens st), NUL) 0 false (out st ++ [uchar v]))
  else if c =? QMARK then
    if prev_was_wildcard st then Ok st
    else Ok (mk_hybrid_state (tokens st) (n_tokens st) true (out st ++ [_wildcard]))
  else
    tokens' <- tokens_store (tokens st) (n_tokens st) c ;;
    Ok (mk_hybrid_state tokens' (S (n_tokens st)) (prev_was_wildcard st) (out st)).

Fixpoint hybrid_loop (_wildcard : Z) (st : hybrid_state) (l : list Z)
  : result hybrid_state :=
  match l with
  | [] => Ok st
  | c :: l' => st' <- hybrid_step _wildcard st c ;; hybrid_loop _wildcard st' l'
  end.

(** After the loop: [if (n_tokens) *my_pat++ = strtoul(...); _end = my_pat;] *)
Definition hybrid_finish (st : hybrid_state) : result (list Z) :=
  if Nat.eqb (n_tokens st) 0 then Ok (out st)
  else
    v <- strtoul_mem (tokens_mem (tokens st)) ;;
    Ok (out st ++ [uchar v]).

Definition hybrid_to_wildcard (l : list Z) (_wildcard : Z) : result (list Z) :=
  st <- hybrid_loop _wildcard hybrid_init l ;;
  hybrid_finish st.

(** *** Constructors *)

(** [memory_signature()] *)
Definition memory_signature_empty : memory_signature := mk_signature [] 0.

(** [memory_signature(initializer_list<Wildcard> pattern, Wildcard wildcard)] *)
Definition memory_signature_wildcard (pat : list Z) (wc : Z) : memory_signature :=
  mk_signature (map uchar pat) (uchar wc).

(** The two masked constructors have the same body: the member
    initialisers run the resolver, then the sizes are compared, then the
    buffer is filled. *)
Definition memory_signature_masked (pat mask : list Z) (unknown_byte_identifier : Z)
  : result memory_signature :=
  w <- detail.find_wildcard_masked pat mask unknown_byte_identifier ;;
  if negb (Nat.eqb (length pat) (length mask)) then Throw invalid_argument
  else
    p <- masked_to_wildcard pat mask (uchar unknown_byte_identifier) w ;;
    Ok (mk_signature p w).

(** [memory_signature(initializer_list<Byte>, const std::string &mask, Byte = '?')] *)
Definition memory_signature_string_mask (pat : list Z) (mask : string) (unk : Z)
  : result memory_signature :=
  memory_signature_masked pat (plain_chars mask) unk.

(** [memory_signature(initializer_list<Byte>, initializer_list<Byte> mask, Byte = 0)] *)
Definition memory_signature_byte_mask (pat mask : list Z) (unk : Z)
  : result memory_signature :=
  memory_signature_masked pat mask unk.

(** [memory_signature(const std::string &pattern)] *)
Definition memory_signature_hybrid (s : string) : result memory_signature :=
  w <- detail.find_wildcard_hybrid (chars s) ;;
  p <- hybrid_to_wildcard (chars s) w ;;
  Ok (mk_signature p w).

(** *** find *)

(** [*it] for an iterator of the caller's range [[first, last)]. *)
Definition deref (range : list Z) (it : nat) : result Z :=
  match nth_error range it with
  | Some x => Ok x
  | None => Undef range_overrun
  end.

(** How one alignment of the pattern ends. *)
Inductive attempt : Type :=
| Matched     (* [s_it == s_last] *)
| HitLast     (* [it == last] *)
| Mismatch.   (* [!p( *it, *s_it)] *)

Section StdSearch.
(** [std::search(first, last, s_first, s_last, p)], the forward search of
    <algorithm>:
    [while (true) {
       it = first;
       for (s_it = s_first; ; ++it, ++s_it) {
         if (s_it == s_last) return first;
         if (it == last) return last;
         if (!p( *it, *s_it)) break;
       }
       ++first;
     }] *)
Variable p : Z -> Z -> bool.
Variable range : list Z.
Variable last : nat.

Fixpoint search_at (it : nat) (s_it : list Z) : result attempt :=
  match s_it with
  | [] => Ok Matched
  | y :: s_it' =>
      if Nat.eqb it last then Ok HitLast
      else
        x <- deref range it ;;
        if p x y then search_at (S it) s_it' else Ok Mismatch
  end.

(** [gap] is [last - first], the variant of the outer loop. *)
Fixpoint search_from (s_first : list Z) (gap : nat) (first : nat) : result nat :=
  a <- search_at first s_first ;;
  match a with
  | Matched => Ok first
  | HitLast => Ok last
  | Mismatch =>
      match gap with
      | O => Undef range_overrun
      | S gap' => search_from s_first gap' (S first)
      end
  end.
End StdSearch.

Definition std_search (p : Z -> Z -> bool) (range s : list Z) : result nat :=
  search_from p range (length range) s (length range) 0.

(** The lambda of [find]:
    [[wildcard = _wildcard](unsigned char lhs, unsigned char rhs)
       { return lhs == rhs || rhs == wildcard; }] *)
Definition find_pred (wc : Z) (lhs rhs : Z) : bool :=
  (uchar lhs =? rhs) || (rhs =? wc).

(** [find(first, last)]: the range is the list of its elements, a position
    is an offset from [first], and [last] is the length of the range. *)
Definition find (sig : memory_signature) (range : list Z) : result nat :=
  match _pattern sig with
  | [] => Ok (length range)
  | _ :: _ => std_search (find_pred (_wildcard sig)) range (_pattern sig)
  end.

(** ** What the specification says, in its own words *)

(** Byte equivalence of the matcher: the range byte equals the pattern
    byte, or the pattern byte is the sentinel. *)
Definition byte_equiv (sig : memory_signature) (range_byte pattern_byte : Z) : Prop :=
  uchar range_byte = pattern_byte \/ pattern_byte = _wildcard sig.

(** A full-length match of the pattern at position [p] of the range. *)
Definition matches_at (sig : memory_signature) (range : list Z) (p : nat) : Prop :=
  forall i y, nth_error (_pattern sig) i = Some y ->
    exists x, nth_error range (p + i) = Some x /\ byte_equiv sig x y.

(** Position [i] of a masked pattern is a literal. *)
Definition literal_at (mask : list Z) (unk : Z) (i : nat) : Prop :=
  exists m, nth_error mask i = Some m /\ m <> uchar unk.

(** The literal bytes of a masked pattern cover every byte value. *)
Definition literals_cover_all (pat mask : list Z) (unk : Z) : Prop :=
  forall v, 0 <= v < 256 ->
    exists i b, nth_error pat i = Some b /\ uchar b = v /\ literal_at mask unk i.

(** Whitespace-delimited tokens of a string; [cur] is the token being
    read, in reverse. *)
Fixpoint split_tokens (cur : list Z) (l : list Z) : list (list Z) :=
  match l with
  | [] => match cur with [] => [] | _ => [rev cur] end
  | c :: l' =>
      if c =? SPACE then
        match cur with
        | [] => split_tokens [] l'
        | _ => rev cur :: split_tokens [] l'
        end
      else split_tokens (c :: cur) l'
  end.

Definition tokens_of (s : string) : list (list Z) := split_tokens [] (chars s).

Definition is_hex_char (c : Z) : bool :=
  match hex_digit c with Some _ => true | None => false end.

(** A run of one or more ['?']. *)
Definition wildcard_token (t : list Z) : bool :=
  negb (Nat.eqb (length t) 0) && forallb (fun c => c =? QMARK) t.

(** One hexadecimal digit. *)
Definition hex_digit_token (t : list Z) : bool :=
  match t with
  | [c] => is_hex_char c
  | _ => false
  end.

Definition is_sign (c : Z) : bool := (c =? 45) || (c =? 43).

(** The value of a character as a hexadecimal digit, 0 when it is none. *)
Definition digit_or_zero (c : Z) : Z :=
  match hex_digit c with Some d => d | None => 0 end.

(** The conversion of the two buffered characters [c1], [c2] ends at one of
    them: after white space comes a character that is no white space, sign
    or digit; after a sign comes no digit; after a digit comes no digit,
    and no [x] after [0]; any other first character ends it at once. *)
Definition stops_within (c1 c2 : Z) : bool :=
  if isspace c1 then negb (isspace c2) && negb (is_sign c2) && negb (is_hex_char c2)
  else if is_sign c1 then negb (is_hex_char c2)
  else if is_hex_char c1 then
    negb (is_hex_char c2) && negb ((c1 =? 48) && ((c2 =? 120) || (c2 =? 88)))
  else true.

(** One character other than ['?'], or two of them whose conversion ends
    inside the buffer. *)
Definition plain_token (t : list Z) : bool :=
  match t with
  | [c] => negb (c =? QMARK)
  | [c1; c2] => negb (c1 =? QMARK) && negb (c2 =? QMARK) && stops_within c1 c2
  | _ => false
  end.

(** Some character of the token is neither a hexadecimal digit nor ['?']. *)
Definition malformed_token (t : list Z) : bool :=
  existsb (fun c => negb (is_hex_char c) && negb (c =? QMARK)) t.

(** Hex-to-integer conversion of a token of digits. *)
Definition hex_value (t : list Z) : Z :=
  fold_left (fun acc c => 16 * acc + match hex_digit c with Some d => d | None => 0 end) t 0.

(** The characters of a token up to its first NUL. *)
Fixpoint c_str (t : list Z) : list Z :=
  match t with
  | [] => []
  | c :: t' => if c =? NUL then [] else c :: c_str t'
  end.

(** The byte stored for a token that is a run of ['?'] or a plain token. *)
Definition token_byte (wc : Z) (t : list Z) : Z :=
  if wildcard_token t then wc
  else match t with
       | c :: _ => digit_or_zero c
       | [] => 0
       end.

(** The resolver of the hybrid notation as the specification describes it:
    every byte of the raw string outside of space and ['?'] is forbidden,
    and the sentinel is the smallest value that is not. *)
Definition hybrid_forbidden (l : list Z) (v : Z) : bool :=
  existsb (fun c => (uchar c =? v) && negb (c =? SPACE) && negb (c =? QMARK)) l.

Definition spec_hybrid_sentinel (l : list Z) : option Z :=
  List.find (fun v => negb (hybrid_forbidden l v)) (map Z.of_nat (seq 0 256)).

(** The [std::string] holding the single character NUL. *)
Definition nul_string : string := String (ascii_of_nat 0) EmptyString.

(** The 256 byte values, ascending. *)
Definition all_bytes : list Z := map Z.of_nat (seq 0 256).

(** Invariant 1 for the masked notation: no literal position holds the
    sentinel. *)
Definition masked_sentinel_fresh (pat mask : list Z) (unk : Z)
  (sig : memory_signature) : Prop :=
  forall i b, nth_error pat i = Some b -> literal_at mask unk i ->
    uchar b <> _wildcard sig.

(** The literal bytes of a hybrid string: the values of the tokens that are
    not runs of ['?'], each read as a terminated C string. *)
Definition hybrid_literals (s : string) : list Z :=
  map (fun t => uchar (strtoul16 (c_str t)))
      (filter (fun t => negb (wildcard_token t)) (tokens_of s)).

(** Invariant 1 for the hybrid notation. *)
Definition hybrid_sentinel_fresh (s : string) (sig : memory_signature) : Prop :=
  ~ In (_wildcard sig) (hybrid_literals s).

(** Every pattern element is related by [p] to the range element it is
    aligned with when the pattern starts at position [q]. *)
Definition full_match (p : Z -> Z -> bool) (range s : list Z) (q : nat) : Prop :=
  forall i y, nth_error s i = Some y ->
    exists x, nth_error range (q + i) = Some x /\ p x y = true.

(** A token the parser handles within its two-character buffer: a run of
    ['?'], or a plain token. *)
Definition token_ok (t : list Z) : bool := wildcard_token t || plain_token t.

(** A run of ['?'], or one hexadecimal digit. *)
Definition token_wf (t : list Z) : bool := wildcard_token t || hex_digit_token t.

(** The statement that the parsed pattern has one byte for each token. *)
Definition hybrid_length_claim (s : string) : Prop :=
  exists sig, memory_signature_hybrid s = Ok sig /\
              length (_pattern sig) = length (tokens_of s).

Definition has_malformed_token (s : string) : Prop :=
  existsb malformed_token (tokens_of s) = true.

(** Construction fails with an exception. *)
Definition hybrid_rejects (s : string) : Prop :=
  exists e, memory_signature_hybrid s = Throw e.

(** ** Statements about the whole header *)

(** [r] is the lowest position at which [P] holds, or [last] when [P]
    holds nowhere: what [find] returns for a match condition [P]. *)
Definition first_or_last (P : nat -> Prop) (last r : nat) : Prop :=
  (r < last)%nat /\ P r /\ (forall q, (q < r)%nat -> ~ P q)
  \/ r = last /\ forall q, ~ P q.

(** [needle] is the part of [hay] that starts at position [p]. *)
Definition occurs_at (needle hay : list Z) (p : nat) : Prop :=
  firstn (length needle) (skipn p hay) = needle.

(** The pattern placed at position [p] lies inside the range and every
    byte at a position [lit] calls a literal equals, as an
    [unsigned char], the range byte aligned with it. *)
Definition agrees_where (lit : nat -> Z -> Prop) (pat range : list Z) (p : nat)
  : Prop :=
  (p + length pat <= length range)%nat /\
  forall i b x, nth_error pat i = Some b -> nth_error range (p + i) = Some x ->
    lit i b -> uchar x = uchar b.

(** Position [i] of a masked pattern is a wildcard. *)
Definition wildcard_at (mask : list Z) (unk : Z) (i : nat) : Prop :=
  exists m, nth_error mask i = Some m /\ m = uchar unk.

(** The characters of a token that are not ['?'], in order: what the
    parser copies into [tokens]. *)
Definition literal_chars (t : list Z) : list Z :=
  filter (fun c => negb (c =? QMARK)) t.

Definition has_qmark (t : list Z) : bool := existsb (fun c => c =? QMARK) t.

(** At most two characters of the token go to the buffer. *)
Definition token_fits (t : list Z) : bool :=
  Nat.leb (length (literal_chars t)) 2.

(** The conversion of what the token puts in the buffer ends inside the
    buffer: at most two characters, and two only when [stops_within]. *)
Definition token_reads_inside (t : list Z) : bool :=
  match literal_chars t with
  | [] => true
  | [_] => true
  | [c1; c2] => stops_within c1 c2
  | _ => false
  end.

(** The bytes a token of any shape leaves in the pattern when its
    conversion ends inside the buffer: the sentinel when it has a ['?'],
    then the digit value of the first of its other characters when it has
    any. *)
Definition token_bytes (wc : Z) (t : list Z) : list Z :=
  (if has_qmark t then [wc] else []) ++
  match literal_chars t with
  | [] => []
  | c :: _ => [digit_or_zero c]
  end.

(** The masked form of a list of tokens: value and mask entry of each. *)
Definition token_value (t : list Z) : Z :=
  if wildcard_token t then 0 else hex_value t.

Definition token_mask (t : list Z) : Z :=
  if wildcard_token t then 0 else 1.

(** ** Invariants used in the proofs *)

(** [tokens] holds the characters [lc] buffered for the current token. *)
Definition buffer_holds (lc : list Z) (tk : tokens_t) : Prop :=
  match lc with
  | [] => snd tk = NUL
  | [c] => tk = (c, NUL)
  | [c1; c2] => tk = (c1, c2)
  | _ => False
  end.

(** The loop invariant of [hybrid_to_wildcard]: [cur] is the token being
    read, in reverse, and [o] the bytes written for the tokens before it. *)
Definition parse_inv_gen (w : Z) (cur : list Z) (st : hybrid_state) (o : list Z)
  : Prop :=
  buffer_holds (literal_chars (rev cur)) (tokens st) /\
  n_tokens st = length (literal_chars (rev cur)) /\
  prev_was_wildcard st = has_qmark (rev cur) /\
  out st = o ++ (if has_qmark (rev cur) then [w] else []).

(** The loop from the state [st] on, followed by the code behind it. *)
Definition hybrid_run (w : Z) (st : hybrid_state) (l : list Z) : result (list Z) :=
  st' <- hybrid_loop w st l ;; hybrid_finish st'.

(** * Properties *)

(** ** The wildcard resolver *)

Lemma uchar_range (z : Z) : 0 <= uchar z < 256.
Proof. unfold uchar. apply Z.mod_pos_bound. lia. Qed.

Lemma uchar_small (z : Z) : 0 <= z < 256 -> uchar z = z.
Proof. intros H. unfold uchar. apply Z.mod_small. exact H. Qed.

Lemma char_code_range (c : ascii) : 0 <= char_code c < 256.
Proof.
  unfold char_code. pose proof (N_ascii_bounded c) as H. lia.
Qed.

Lemma chars_range (s : string) : Forall (fun c => 0 <= c < 256) (chars s).
Proof.
  unfold chars. apply Forall_forall. intros x Hx.
  apply in_map_iff in Hx. destruct Hx as [c [<- _]]. apply char_code_range.
Qed.

Lemma bitset_assign_test (bits : bitset) (i j : Z) (v : bool) :
  0 <= i ->
  bitset_test (bitset_assign bits i v) j =
  if i =? j then v else bitset_test bits j.
Proof.
  intros Hi. unfold bitset_test, bitset_assign. destruct v.
  - rewrite Z.setbit_eqb by exact Hi. destruct (i =? j); reflexivity.
  - rewrite Z.clearbit_eqb. destruct (i =? j); simpl.
    + apply andb_false_r.
    + apply andb_true_r.
Qed.

Lemma scan_some (bits : bitset) (n : nat) (i j : Z) :
  detail.scan bits i n = Some j ->
  i <= j < i + Z.of_nat n /\ bitset_test bits j = false /\
  forall k, i <= k < j -> bitset_test bits k = true.
Proof.
  revert i. induction n as [|n IH]; intros i H; simpl in H.
  - discriminate.
  - destruct (bitset_test bits i) eqn:E.
    + apply IH in H. destruct H as [Hr [Hj Hk]]. repeat split; try lia.
      * exact Hj.
      * intros k Hkr. destruct (Z.eq_dec k i) as [->|Hne]; [exact E|].
        apply Hk. lia.
    + inversion H; subst j. repeat split; try lia. exact E.
Qed.

Lemma scan_none (bits : bitset) (n : nat) (i : Z) :
  detail.scan bits i n = None <->
  forall k, i <= k < i + Z.of_nat n -> bitset_test bits k = true.
Proof.
  revert i. induction n as [|n IH]; intros i; simpl.
  - split; [intros _ k Hk; lia | reflexivity].
  - destruct (bitset_test bits i) eqn:E.
    + rewrite IH. split; intros H k Hk.
      * destruct (Z.eq_dec k i) as [->|Hne]; [exact E|]. apply H. lia.
      * apply H. lia.
    + split; [discriminate|]. intros H. rewrite H in E by lia. discriminate.
Qed.

(** The scan returns the first clear bit when bit [j] is clear and all
    bits below it are set. *)
Lemma scan_first_clear (bits : bitset) (n : nat) (i j : Z) :
  i <= j < i + Z.of_nat n ->
  bitset_test bits j = false ->
  (forall k, i <= k < j -> bitset_test bits k = true) ->
  detail.scan bits i n = Some j.
Proof.
  revert i. induction n as [|n IH]; intros i Hr Hj Hk; simpl.
  - lia.
  - destruct (Z.eq_dec i j) as [->|Hne].
    + rewrite Hj. reflexivity.
    + rewrite Hk by lia. apply IH; try lia; try exact Hj.
      intros k Hkr. apply Hk. lia.
Qed.

(** *** The hybrid resolver *)

Lemma hybrid_cmp_true (b : Z) :
  negb (negb (b =? SPACE) && negb (b =? QMARK)) = true -> b = SPACE \/ b = QMARK.
Proof.
  destruct (Z.eqb_spec b SPACE); [left; assumption|].
  destruct (Z.eqb_spec b QMARK); [right; assumption|].
  simpl. discriminate.
Qed.

(** Marking with the hybrid comparator never fails, and a bit it leaves
    set was set before or belongs to a space or a ['?'] of the input. *)
Lemma hybrid_mark_bits (l : list Z) : forall bits,
  exists bits', detail.mark detail.hybrid_cmp tt bits l = Ok bits' /\
    forall i, bitset_test bits' i = true ->
      bitset_test bits i = true \/ ((i = SPACE \/ i = QMARK) /\ In i l).
Proof.
  induction l as [|b l IH]; intros bits; simpl.
  - exists bits. split; [reflexivity|]. intros i H. left. exact H.
  - destruct (IH (bitset_assign bits (uchar b)
                    (negb (negb (b =? SPACE) && negb (b =? QMARK)))))
      as [bits' [Hm Hb]].
    exists bits'. split; [exact Hm|]. intros i Hi.
    destruct (Hb i Hi) as [H|[H1 H2]].
    + rewrite bitset_assign_test in H by apply uchar_range.
      destruct (Z.eqb_spec (uchar b) i) as [Heq|Hne].
      * apply hybrid_cmp_true in H. right.
        assert (Hbi : b = i).
        { rewrite <- Heq. symmetry. apply uchar_small.
          unfold SPACE, QMARK in H. lia. }
        clear Heq. subst i. split; [exact H | left; reflexivity].
      * left. exact H.
    + right. split; [exact H1 | right; exact H2].
Qed.

Lemma find_wildcard_hybrid_zero (l : list Z) :
  detail.find_wildcard_hybrid l = Ok 0.
Proof.
  unfold detail.find_wildcard_hybrid, detail.find_wildcard.
  destruct (hybrid_mark_bits l bitset_empty) as [bits [Hm Hb]].
  rewrite Hm. cbv beta iota delta [bind].
  assert (H0 : bitset_test bits 0 = false).
  { destruct (bitset_test bits 0) eqn:E; [|reflexivity].
    destruct (Hb 0 E) as [H|[[H|H] _]].
    - unfold bitset_test, bitset_empty in H. rewrite Z.testbit_0_l in H. discriminate.
    - discriminate.
    - discriminate. }
  rewrite (scan_first_clear bits 256 0 0); [reflexivity | lia | exact H0 | intros; lia].
Qed.

Lemma strtoul_spaces_not_throw (mem : list Z) (e : exception) :
  strtoul_spaces mem <> Throw e.
Proof.
  induction mem as [|c mem IH]; simpl; [discriminate|].
  destruct (isspace c); [exact IH|discriminate].
Qed.

Lemma strtoul_prefix_not_throw (mem : list Z) (e : exception) :
  strtoul_prefix mem <> Throw e.
Proof.
  unfold strtoul_prefix. destruct mem as [|z [|x [|d r]]]; try discriminate;
    destruct (z =? 48); try discriminate;
    destruct ((x =? 120) || (x =? 88)); try discriminate.
  destruct (hex_digit d); discriminate.
Qed.

Lemma strtoul_digits_not_throw (mem : list Z) : forall acc e,
  strtoul_digits acc mem <> Throw e.
Proof.
  induction mem as [|c mem IH]; intros acc e; simpl; [discriminate|].
  destruct (hex_digit c); [apply IH|discriminate].
Qed.

Lemma strtoul_number_not_throw (mem : list Z) (e : exception) :
  strtoul_number mem <> Throw e.
Proof.
  unfold strtoul_number.
  destruct (strtoul_prefix mem) as [s3|e3|u3] eqn:E3; simpl;
    [|exfalso; exact (strtoul_prefix_not_throw _ _ E3)|discriminate].
  apply strtoul_digits_not_throw.
Qed.

Lemma strtoul_mem_not_throw (mem : list Z) (e : exception) :
  strtoul_mem mem <> Throw e.
Proof.
  unfold strtoul_mem.
  destruct (strtoul_spaces mem) as [s1|e1|u1] eqn:E1; simpl;
    [|exfalso; exact (strtoul_spaces_not_throw _ _ E1)|discriminate].
  destruct (strtoul_number (snd (strtoul_sign s1))) as [v|e4|u4] eqn:E4; simpl;
    [discriminate|exfalso; exact (strtoul_number_not_throw _ _ E4)|discriminate].
Qed.

Lemma hybrid_step_not_throw (w : Z) (st : hybrid_state) (c : Z) (e : exception) :
  hybrid_step w st c <> Throw e.
Proof.
  unfold hybrid_step.
  destruct (c =? SPACE).
  - destruct (Nat.eqb (n_tokens st) 0); [discriminate|].
    destruct (strtoul_mem (tokens_mem (tokens st))) as [v|e'|u] eqn:E; simpl;
      [discriminate|exfalso; exact (strtoul_mem_not_throw _ _ E)|discriminate].
  - destruct (c =? QMARK); [destruct (prev_was_wildcard st); discriminate|].
    destruct (n_tokens st) as [|[|n]]; simpl; discriminate.
Qed.

Lemma hybrid_finish_not_throw (st : hybrid_state) (e : exception) :
  hybrid_finish st <> Throw e.
Proof.
  unfold hybrid_finish. destruct (Nat.eqb (n_tokens st) 0); [discriminate|].
  destruct (strtoul_mem (tokens_mem (tokens st))) as [v|e'|u] eqn:E; simpl;
    [discriminate|exfalso; exact (strtoul_mem_not_throw _ _ E)|discriminate].
Qed.

Lemma hybrid_loop_not_throw (w : Z) (l : list Z) : forall st e,
  hybrid_loop w st l <> Throw e.
Proof.
  induction l as [|c l IH]; intros st e; simpl.
  - discriminate.
  - destruct (hybrid_step w st c) as [st'|e'|u] eqn:E; simpl.
    + apply IH.
    + exfalso. exact (hybrid_step_not_throw _ _ _ _ E).
    + discriminate.
Qed.

Lemma memory_signature_hybrid_not_throw (s : string) (e : exception) :
  memory_signature_hybrid s <> Throw e.
Proof.
  unfold memory_signature_hybrid. rewrite find_wildcard_hybrid_zero. simpl.
  unfold hybrid_to_wildcard.
  destruct (hybrid_loop 0 hybrid_init (chars s)) as [st|e'|u] eqn:E; simpl.
  - destruct (hybrid_finish st) as [p|e'|u] eqn:Ef; simpl;
      [discriminate|exfalso; exact (hybrid_finish_not_throw _ _ Ef)|discriminate].
  - exfalso. exact (hybrid_loop_not_throw _ _ _ _ E).
  - discriminate.
Qed.

Lemma memory_signature_hybrid_wildcard (s : string) (sig : memory_signature) :
  memory_signature_hybrid s = Ok sig -> _wildcard sig = 0.
Proof.
  unfold memory_signature_hybrid. rewrite find_wildcard_hybrid_zero. simpl.
  destruct (hybrid_to_wildcard (chars s) 0); simpl; intros H; inversion H.
  reflexivity.
Qed.

(** C10: for every input of the hybrid constructor the resolver returns 0
    and the [range_error] branch is never taken; the presence set holds
    nothing but the codes of the spaces and ['?'] of the input, and 0 is
    neither. *)
Theorem hybrid_sentinel_always_zero (s : string) :
  detail.find_wildcard_hybrid (chars s) = Ok 0 /\
  (forall e, memory_signature_hybrid s <> Throw e) /\
  (forall sig, memory_signature_hybrid s = Ok sig -> _wildcard sig = 0) /\
  exists bits,
    detail.mark detail.hybrid_cmp tt bitset_empty (chars s) = Ok bits /\
    forall i, bitset_test bits i = true ->
      (i = SPACE \/ i = QMARK) /\ In i (chars s).
Proof.
  split; [apply find_wildcard_hybrid_zero|].
  split; [intros e; apply memory_signature_hybrid_not_throw|].
  split; [apply memory_signature_hybrid_wildcard|].
  destruct (hybrid_mark_bits (chars s) bitset_empty) as [bits [Hm Hb]].
  exists bits. split; [exact Hm|]. intros i Hi.
  destruct (Hb i Hi) as [H|H]; [|exact H].
  unfold bitset_test, bitset_empty in H. rewrite Z.testbit_0_l in H. discriminate.
Qed.

(** On a string without NUL the sentinel of the code is the one the
    described resolver would pick. *)
Lemma hybrid_sentinel_agrees_without_nul (s : string) :
  ~ In NUL (chars s) ->
  spec_hybrid_sentinel (chars s) = Some 0 /\
  detail.find_wildcard_hybrid (chars s) = Ok 0.
Proof.
  intros Hnul. split; [|apply find_wildcard_hybrid_zero].
  unfold spec_hybrid_sentinel.
  change (seq 0 256) with (0%nat :: seq 1 255).
  cbn [map List.find]. change (Z.of_nat 0) with 0.
  assert (H : hybrid_forbidden (chars s) 0 = false).
  { unfold hybrid_forbidden. apply not_true_is_false. intros H.
    apply existsb_exists in H. destruct H as [c [Hin Hc]].
    apply andb_prop in Hc. destruct Hc as [Hc _].
    apply andb_prop in Hc. destruct Hc as [Hc _].
    apply Z.eqb_eq in Hc.
    pose proof (chars_range s) as Hr. rewrite Forall_forall in Hr.
    rewrite uchar_small in Hc by (apply Hr; exact Hin).
    apply Hnul. unfold NUL. rewrite <- Hc. exact Hin. }
  rewrite H. reflexivity.
Qed.

(** C4: the comparator of the hybrid resolver is the negation of the one
    described.  On the string made of one NUL character value 0 occurs
    outside of space and ['?'], so the described resolver forbids it and
    picks 1; the code picks 0.  On ["41 ??"] the presence set of the code
    holds the codes of the space and of ['?'] and neither of the digits. *)
Theorem hybrid_resolver_marks_inverted_set :
  hybrid_forbidden (chars nul_string) 0 = true /\
  spec_hybrid_sentinel (chars nul_string) = Some 1 /\
  detail.find_wildcard_hybrid (chars nul_string) = Ok 0 /\
  memory_signature_hybrid nul_string = Ok (mk_signature [0] 0) /\
  detail.mark detail.hybrid_cmp tt bitset_empty (chars "41 ??")
    = Ok (2 ^ SPACE + 2 ^ QMARK) /\
  hybrid_forbidden (chars "41 ??") 52 = true /\
  hybrid_forbidden (chars "41 ??") SPACE = false.
Proof. repeat split; vm_compute; reflexivity. Qed.

(** *** The masked resolver *)

Lemma mark_masked_overrun (u : Z) (pat : list Z) : forall mask bits,
  (length mask < length pat)%nat ->
  detail.mark (detail.masked_cmp u) mask bits pat = Undef mask_overrun.
Proof.
  induction pat as [|b pat IH]; intros mask bits H; simpl in *.
  - lia.
  - destruct mask as [|m mask]; simpl; [reflexivity|].
    apply IH. simpl in H. lia.
Qed.

Lemma mark_masked_ok (u : Z) (pat : list Z) : forall mask bits,
  (length pat <= length mask)%nat ->
  exists bits', detail.mark (detail.masked_cmp u) mask bits pat = Ok bits'.
Proof.
  induction pat as [|b pat IH]; intros mask bits H; simpl in *.
  - exists bits. reflexivity.
  - destruct mask as [|m mask]; simpl in *; [lia|].
    apply IH. lia.
Qed.

(** With a mask that marks every position as a literal the presence set
    only grows: it ends with the bits it had and one for each byte. *)
Lemma mark_all_literal (u : Z) (pat : list Z) : forall mask bits,
  length pat = length mask ->
  Forall (fun m => m <> u) mask ->
  exists bits', detail.mark (detail.masked_cmp u) mask bits pat = Ok bits' /\
    forall i, bitset_test bits' i = true <->
              bitset_test bits i = true \/ In i (map uchar pat).
Proof.
  induction pat as [|b pat IH]; intros mask bits Hlen Hall; simpl in *.
  - exists bits. split; [reflexivity|]. intros i. tauto.
  - destruct mask as [|m mask]; simpl in *; [discriminate|].
    inversion Hall as [|? ? Hm Hall']; subst.
    destruct (Z.eqb_spec m u) as [Heq|_]; [contradiction|]. simpl.
    destruct (IH mask (bitset_assign bits (uchar b) true)) as [bits' [Hmk Hb]];
      [lia | exact Hall' |].
    exists bits'. split; [exact Hmk|]. intros i. rewrite Hb.
    rewrite bitset_assign_test by apply uchar_range.
    destruct (Z.eqb_spec (uchar b) i) as [Heq|Hne]; intuition congruence.
Qed.

(** X18: a pattern longer than its mask makes the resolver read behind the
    mask, before the sizes are compared. *)
Lemma masked_longer_pattern_overruns (pat mask : list Z) (unk : Z) :
  (length mask < length pat)%nat ->
  memory_signature_masked pat mask unk = Undef mask_overrun.
Proof.
  intros H. unfold memory_signature_masked, detail.find_wildcard_masked,
    detail.find_wildcard.
  rewrite mark_masked_overrun by exact H. reflexivity.
Qed.

(** X19: a pattern shorter than its mask is rejected, with
    [invalid_argument] when the resolver finds a free value and with
    [range_error] when it does not. *)
Lemma masked_shorter_pattern_throws (pat mask : list Z) (unk : Z) :
  (length pat < length mask)%nat ->
  memory_signature_masked pat mask unk = Throw invalid_argument \/
  memory_signature_masked pat mask unk = Throw range_error.
Proof.
  intros H. unfold memory_signature_masked, detail.find_wildcard_masked,
    detail.find_wildcard.
  destruct (mark_masked_ok (uchar unk) pat mask bitset_empty) as [bits Hm]; [lia|].
  rewrite Hm. cbv beta iota delta [bind].
  destruct (detail.scan bits 0 256) as [i|]; [|right; reflexivity].
  left. replace (Nat.eqb (length pat) (length mask)) with false; [reflexivity|].
  symmetry. apply Nat.eqb_neq. lia.
Qed.

(** X20: a pattern without wildcard position whose bytes take every value
    has no free value: the constructor throws [range_error]. *)
Lemma masked_all_literal_cover_throws (pat mask : list Z) (unk : Z) :
  length pat = length mask ->
  Forall (fun m => m <> uchar unk) mask ->
  (forall v, 0 <= v < 256 -> In v (map uchar pat)) ->
  memory_signature_masked pat mask unk = Throw range_error.
Proof.
  intros Hlen Hall Hcov. unfold memory_signature_masked,
    detail.find_wildcard_masked, detail.find_wildcard.
  destruct (mark_all_literal (uchar unk) pat mask bitset_empty Hlen Hall)
    as [bits [Hm Hb]].
  rewrite Hm. cbv beta iota delta [bind].
  replace (detail.scan bits 0 256) with (@None Z); [reflexivity|].
  symmetry. apply scan_none. intros k Hk. apply Hb. right. apply Hcov. lia.
Qed.

(** Without wildcard position the sentinel the resolver returns is none
    of the pattern bytes. *)
Lemma masked_all_literal_sentinel_fresh (pat mask : list Z) (unk : Z)
  (sig : memory_signature) :
  Forall (fun m => m <> uchar unk) mask ->
  memory_signature_masked pat mask unk = Ok sig ->
  ~ In (_wildcard sig) (map uchar pat).
Proof.
  intros Hall. unfold memory_signature_masked, detail.find_wildcard_masked,
    detail.find_wildcard.
  destruct (Nat.eqb_spec (length pat) (length mask)) as [Hlen|Hlen].
  - destruct (mark_all_literal (uchar unk) pat mask bitset_empty Hlen Hall)
      as [bits [Hm Hb]].
    rewrite Hm. cbv beta iota delta [bind].
    destruct (detail.scan bits 0 256) as [j|] eqn:Es; [|discriminate].
    apply scan_some in Es. destruct Es as [Hr [Hj _]].
    cbn [negb].
    destruct (masked_to_wildcard pat mask (uchar unk) (uchar j)); try discriminate.
    intros H. inversion H; subst sig. cbn [_wildcard].
    rewrite uchar_small by lia. intros Hin.
    assert (Ht : bitset_test bits j = true) by (apply Hb; right; exact Hin).
    congruence.
  - destruct (detail.mark (detail.masked_cmp (uchar unk)) mask bitset_empty pat)
      as [bits|e|u]; cbv beta iota delta [bind]; try discriminate.
    destruct (detail.scan bits 0 256); discriminate.
Qed.

Lemma all_bytes_nth (v : Z) :
  0 <= v < 256 -> nth_error all_bytes (Z.to_nat v) = Some v.
Proof.
  intros H. unfold all_bytes.
  rewrite nth_error_map, nth_error_seq.
  replace (Z.to_nat v <? 256)%nat with true
    by (symmetry; apply Nat.ltb_lt; lia).
  simpl. f_equal. lia.
Qed.

(** C2: the sentinel the resolver returns can be a literal of the pattern.
    In the masked notation a wildcard position that repeats the value of an
    earlier literal clears the mark of that value ([bits[v] = cmp(v)] is an
    assignment): bytes [{0, 0}] with mask [{1, 0}] and unknown 0 resolve to
    sentinel 0 although position 0 is the literal 0, and the signature then
    matches a range whose first byte is 0x55.  In the hybrid notation the
    comparator marks the spaces and ['?'] instead of the literals: ["0"]
    resolves to sentinel 0 and stores the literal 0. *)
Theorem sentinel_collides_with_literal :
  (exists sig,
     memory_signature_byte_mask [0; 0] [1; 0] 0 = Ok sig /\
     sig = mk_signature [0; 0] 0 /\
     ~ masked_sentinel_fresh [0; 0] [1; 0] 0 sig /\
     find sig [85; 170] = Ok 0%nat) /\
  (exists sig,
     memory_signature_hybrid "0" = Ok sig /\
     sig = mk_signature [0] 0 /\
     ~ hybrid_sentinel_fresh "0" sig /\
     find sig [85] = Ok 0%nat).
Proof.
  split.
  - exists (mk_signature [0; 0] 0).
    split; [reflexivity|]. split; [reflexivity|]. split; [|reflexivity].
    intros H. apply (H 0%nat 0); [reflexivity | | reflexivity].
    exists 1. split; [reflexivity|]. vm_compute. discriminate.
  - exists (mk_signature [0] 0).
    split; [reflexivity|]. split; [reflexivity|]. split; [|reflexivity].
    intros H. apply H. vm_compute. left. reflexivity.
Qed.

(** C6: the member initialisers run the resolver before the sizes are
    compared.  With four bytes and a mask of three the resolver reads
    [mask[3]], for a byte mask and for a string mask alike; with the 256
    byte values and a mask of 257 literals it throws [range_error], and
    [invalid_argument] is never reached. *)
Theorem masked_length_check_comes_late :
  memory_signature_byte_mask [17; 18; 19; 20] [1; 0; 1] 0 = Undef mask_overrun /\
  memory_signature_string_mask [17; 18; 19; 20] "x?x" QMARK = Undef mask_overrun /\
  memory_signature_byte_mask all_bytes (repeat 1 257) 0 = Throw range_error.
Proof.
  split; [reflexivity|]. split; [reflexivity|].
  vm_compute. reflexivity.
Qed.

(** C7: the literals of the 257-byte pattern [0, 1, ..., 255, 0] whose mask
    makes the last position the only wildcard take every byte value, and
    the constructor returns a signature with sentinel 0 instead of
    throwing: the wildcard position clears the mark the literal 0 had
    set. *)
Theorem covered_pattern_still_resolves :
  literals_cover_all (all_bytes ++ [0]) (repeat 1 256 ++ [0]) 0 /\
  exists sig,
    memory_signature_byte_mask (all_bytes ++ [0]) (repeat 1 256 ++ [0]) 0 = Ok sig /\
    _wildcard sig = 0 /\ _pattern sig = all_bytes ++ [0].
Proof.
  split.
  - intros v Hv. exists (Z.to_nat v), v.
    assert (Hn : (Z.to_nat v < 256)%nat) by lia.
    split; [|split].
    + rewrite nth_error_app1 by (unfold all_bytes; rewrite length_map, length_seq; exact Hn).
      apply all_bytes_nth. exact Hv.
    + apply uchar_small. exact Hv.
    + exists 1. split; [|vm_compute; discriminate].
      rewrite nth_error_app1 by (rewrite repeat_length; exact Hn).
      apply nth_error_repeat. exact Hn.
  - eexists. split; [vm_compute; reflexivity|]. split; reflexivity.
Qed.

(** ** The matcher *)

Section SearchCorrect.
Variable p : Z -> Z -> bool.
Variable range : list Z.

Lemma full_match_fits (s : list Z) (q : nat) :
  s <> [] -> full_match p range s q -> (q + length s <= length range)%nat.
Proof.
  intros Hs Hm. destruct s as [|y0 s]; [contradiction|]. clear Hs.
  destruct (nth_error (y0 :: s) (length s)) as [y|] eqn:E.
  - destruct (Hm _ _ E) as [x [Hx _]].
    assert (Hlt : (q + length s < length range)%nat).
    { apply nth_error_Some. rewrite Hx. discriminate. }
    simpl. lia.
  - apply nth_error_None in E. simpl in E. lia.
Qed.

Lemma search_at_spec (s : list Z) : forall it,
  (it <= length range)%nat ->
  match search_at p range (length range) it s with
  | Ok Matched => full_match p range s it
  | Ok HitLast => (length range < it + length s)%nat
  | Ok Mismatch => (it < length range)%nat /\ ~ full_match p range s it
  | Throw _ | Undef _ => False
  end.
Proof.
  induction s as [|y s IH]; intros it Hit; simpl.
  - intros i y' H. destruct i; discriminate.
  - destruct (Nat.eqb_spec it (length range)) as [Heq|Hne]; [lia|].
    assert (Hlt : (it < length range)%nat) by lia.
    unfold deref. destruct (nth_error range it) as [x|] eqn:Ex.
    2:{ apply nth_error_None in Ex. lia. }
    simpl. destruct (p x y) eqn:Ep.
    + specialize (IH (S it) ltac:(lia)).
      destruct (search_at p range (length range) (S it) s) as [[| |]|e|u];
        try exact IH.
      * intros i y' H. destruct i as [|i]; simpl in H.
        -- inversion H; subst y'. exists x. rewrite Nat.add_0_r. split; assumption.
        -- destruct (IH i y' H) as [x' [Hx' Hp']]. exists x'.
           replace (it + S i)%nat with (S it + i)%nat by lia. split; assumption.
      * simpl. lia.
      * destruct IH as [Hl Hn]. split; [exact Hlt|]. intros Hm. apply Hn.
        intros i y' H. destruct (Hm (S i) y' H) as [x' [Hx' Hp']].
        exists x'. replace (S it + i)%nat with (it + S i)%nat by lia.
        split; assumption.
    + split; [exact Hlt|]. intros Hm.
      destruct (Hm 0%nat y eq_refl) as [x' [Hx' Hp']].
      rewrite Nat.add_0_r in Hx'. congruence.
Qed.

Lemma search_from_spec (s : list Z) : s <> [] -> forall gap first,
  (first + gap = length range)%nat ->
  (forall q, (q < first)%nat -> ~ full_match p range s q) ->
  exists r, search_from p range (length range) s gap first = Ok r /\
    ((r < length range)%nat /\ full_match p range s r /\
       (forall q, (q < r)%nat -> ~ full_match p range s q)
     \/ r = length range /\ forall q, ~ full_match p range s q).
Proof.
  intros Hs. induction gap as [|gap IH]; intros first Hgap Hbefore.
  - pose proof (search_at_spec s first ltac:(lia)) as H.
    simpl. destruct (search_at p range (length range) first s) as [[| |]|e|u];
      simpl; try contradiction.
    + pose proof (full_match_fits s first Hs H). destruct s; [contradiction|].
      simpl in *. lia.
    + exists (length range). split; [reflexivity|]. right. split; [reflexivity|].
      intros q Hq. pose proof (full_match_fits s q Hs Hq).
      destruct (Nat.lt_ge_cases q first) as [Hlt|Hge]; [exact (Hbefore q Hlt Hq)|].
      lia.
    + destruct H as [Hlt _]. lia.
  - pose proof (search_at_spec s first ltac:(lia)) as H.
    simpl. destruct (search_at p range (length range) first s) as [[| |]|e|u];
      simpl; try contradiction.
    + exists first. split; [reflexivity|]. left.
      pose proof (full_match_fits s first Hs H).
      split; [destruct s; [contradiction|]; simpl in *; lia|].
      split; assumption.
    + exists (length range). split; [reflexivity|]. right. split; [reflexivity|].
      intros q Hq. pose proof (full_match_fits s q Hs Hq).
      destruct (Nat.lt_ge_cases q first) as [Hlt|Hge]; [exact (Hbefore q Hlt Hq)|].
      lia.
    + destruct H as [Hlt Hno]. apply IH; [lia|].
      intros q Hq. destruct (Nat.eq_dec q first) as [->|Hne]; [exact Hno|].
      apply Hbefore. lia.
Qed.
End SearchCorrect.

Lemma find_pred_equiv (sig : memory_signature) (x y : Z) :
  find_pred (_wildcard sig) x y = true <-> byte_equiv sig x y.
Proof.
  unfold find_pred, byte_equiv. rewrite orb_true_iff, !Z.eqb_eq. reflexivity.
Qed.

Lemma full_match_matches_at (sig : memory_signature) (range : list Z) (q : nat) :
  full_match (find_pred (_wildcard sig)) range (_pattern sig) q <->
  matches_at sig range q.
Proof.
  unfold full_match, matches_at. split; intros H i y Hy;
    destruct (H i y Hy) as [x [Hx Hp]]; exists x; (split; [exact Hx|]);
    apply find_pred_equiv; exact Hp.
Qed.

Lemma matches_at_fits (sig : memory_signature) (range : list Z) (q : nat) :
  _pattern sig <> [] -> matches_at sig range q ->
  (q + length (_pattern sig) <= length range)%nat.
Proof.
  intros Hs Hm. apply full_match_matches_at in Hm.
  exact (full_match_fits _ _ _ _ Hs Hm).
Qed.

(** C1: with a non-empty pattern [find] returns a position and never an
    access outside of the range.  The position is the lowest one at which
    every pattern byte is equivalent to the range byte aligned with it
    (equal to it, or the pattern byte is the sentinel); it is [last], the
    length of the range, when there is none, as when the range is shorter
    than the pattern. *)
Theorem find_first_match (sig : memory_signature) (range : list Z) :
  _pattern sig <> [] ->
  exists r, find sig range = Ok r /\
    ((r < length range)%nat /\ matches_at sig range r /\
       (forall q, (q < r)%nat -> ~ matches_at sig range q)
     \/ r = length range /\ forall q, ~ matches_at sig range q) /\
    ((length range < length (_pattern sig))%nat -> r = length range).
Proof.
  intros Hs.
  destruct (search_from_spec (find_pred (_wildcard sig)) range (_pattern sig) Hs
              (length range) 0%nat eq_refl) as [r [Hr Hspec]].
  { intros q Hq. lia. }
  exists r. split.
  - unfold find, std_search. destruct (_pattern sig); [contradiction|exact Hr].
  - assert (Hspec' :
      (r < length range)%nat /\ matches_at sig range r /\
        (forall q, (q < r)%nat -> ~ matches_at sig range q)
      \/ r = length range /\ forall q, ~ matches_at sig range q).
    { destruct Hspec as [[Hlt [Hm Hmin]]|[Heq Hno]].
      - left. split; [exact Hlt|]. split; [apply full_match_matches_at; exact Hm|].
        intros q Hq Hmq. apply (Hmin q Hq). apply full_match_matches_at. exact Hmq.
      - right. split; [exact Heq|]. intros q Hmq. apply (Hno q).
        apply full_match_matches_at. exact Hmq. }
    split; [exact Hspec'|]. intros Hshort.
    destruct Hspec' as [[Hlt [Hm _]]|[Heq _]]; [|exact Heq].
    pose proof (matches_at_fits sig range r Hs Hm). lia.
Qed.

Lemma find_first_match_witness :
  _pattern (mk_signature [17; 0; 19; 20] 0) <> [] /\
  exists r, find (mk_signature [17; 0; 19; 20] 0) [1; 0; 17; 255; 19; 20; 3] = Ok r /\
    ((r < 7)%nat /\ matches_at (mk_signature [17; 0; 19; 20] 0) [1; 0; 17; 255; 19; 20; 3] r /\
       (forall q, (q < r)%nat ->
          ~ matches_at (mk_signature [17; 0; 19; 20] 0) [1; 0; 17; 255; 19; 20; 3] q)
     \/ r = 7%nat /\
        forall q, ~ matches_at (mk_signature [17; 0; 19; 20] 0) [1; 0; 17; 255; 19; 20; 3] q) /\
    ((7 < 4)%nat -> r = 7%nat).
Proof.
  split; [discriminate|].
  apply (find_first_match (mk_signature [17; 0; 19; 20] 0) [1; 0; 17; 255; 19; 20; 3]).
  discriminate.
Defined.

(** The equivalence is one-sided: a range byte equal to the sentinel does
    not stand for the literal it is aligned with, a pattern byte equal to
    the sentinel stands for any range byte. *)
Example range_sentinel_is_no_wildcard :
  find (mk_signature [1; 7] 0) [0; 7; 1; 7] = Ok 2%nat /\
  find (mk_signature [1; 0] 0) [3; 1; 9] = Ok 1%nat /\
  find (mk_signature [1; 7] 0) [0; 7; 0] = Ok 3%nat.
Proof. repeat split; reflexivity. Qed.

(** C8: with an empty pattern [find] returns [last] on every range. *)
Theorem find_empty_pattern (sig : memory_signature) (range : list Z) :
  _pattern sig = [] -> find sig range = Ok (length range).
Proof.
  intros H. unfold find. rewrite H. reflexivity.
Qed.

Lemma find_empty_pattern_witness :
  _pattern memory_signature_empty = [] /\
  find memory_signature_empty [1; 2; 3] = Ok 3%nat /\
  find memory_signature_empty [] = Ok 0%nat.
Proof.
  split; [reflexivity|].
  split.
  - apply (find_empty_pattern memory_signature_empty [1; 2; 3]). reflexivity.
  - apply (find_empty_pattern memory_signature_empty []). reflexivity.
Defined.

(** ** The hybrid notation *)

Lemma split_tokens_head (l : list Z) : forall cur,
  cur <> [] -> exists pre rest, split_tokens cur l = (rev cur ++ pre) :: rest.
Proof.
  induction l as [|c l IH]; intros cur Hcur; simpl.
  - destruct cur; [contradiction|]. exists [], []. rewrite app_nil_r. reflexivity.
  - destruct (c =? SPACE).
    + destruct cur; [contradiction|]. exists [], (split_tokens [] l).
      rewrite app_nil_r. reflexivity.
    + destruct (IH (c :: cur)) as [pre [rest H]]; [discriminate|].
      exists (c :: pre), rest. rewrite H. simpl. rewrite <- app_assoc. reflexivity.
Qed.

Lemma hex_digit_some (c d : Z) :
  hex_digit c = Some d ->
  0 <= d < 16 /\ (48 <= c <= 57 \/ 65 <= c <= 70 \/ 97 <= c <= 102).
Proof.
  unfold hex_digit. intros Hd.
  destruct (Z.leb_spec 48 c), (Z.leb_spec c 57); simpl in Hd;
    try (inversion Hd; lia);
    destruct (Z.leb_spec 97 c), (Z.leb_spec c 102); simpl in Hd;
    try (inversion Hd; lia);
    destruct (Z.leb_spec 65 c), (Z.leb_spec c 70); simpl in Hd;
    try (inversion Hd; lia); discriminate.
Qed.

Lemma is_hex_char_digit (c : Z) :
  is_hex_char c = true -> exists d, hex_digit c = Some d.
Proof.
  unfold is_hex_char. destruct (hex_digit c) as [d|]; [|discriminate].
  intros _. exists d. reflexivity.
Qed.

Lemma forallb_Forall_true {A : Type} (f : A -> bool) (l : list A) :
  forallb f l = true -> Forall (fun x => f x = true) l.
Proof.
  intros H. apply Forall_forall. apply forallb_forall. exact H.
Qed.

Lemma digit_or_zero_range (c : Z) : 0 <= digit_or_zero c < 16.
Proof.
  unfold digit_or_zero. destruct (hex_digit c) as [d|] eqn:E; [|lia].
  apply hex_digit_some in E. tauto.
Qed.

Lemma isspace_not_hex (c : Z) : isspace c = true -> hex_digit c = None.
Proof.
  intros Hs. destruct (hex_digit c) as [d|] eqn:E; [|reflexivity].
  apply hex_digit_some in E. destruct E as [_ E]. unfold isspace in Hs.
  apply orb_true_iff in Hs. destruct Hs as [Hs|Hs].
  - apply Z.eqb_eq in Hs. lia.
  - apply andb_prop in Hs. destruct Hs as [H1 H2].
    apply Z.leb_le in H1. apply Z.leb_le in H2. lia.
Qed.

(** *** strtoul on the two elements of [tokens] *)

(** The number read from a single remaining character. *)
Lemma strtoul_number_one (c : Z) :
  strtoul_number [c] = if is_hex_char c then Undef tokens_overrun else Ok 0.
Proof.
  unfold strtoul_number, strtoul_prefix, is_hex_char.
  destruct (Z.eqb_spec c 48) as [->|Hne]; [reflexivity|].
  cbn [bind strtoul_digits]. destruct (hex_digit c); reflexivity.
Qed.

(** The number read from two remaining characters. *)
Lemma strtoul_number_two (c1 c2 : Z) :
  strtoul_number [c1; c2]
  = if is_hex_char c1
    then if is_hex_char c2 || ((c1 =? 48) && ((c2 =? 120) || (c2 =? 88)))
         then Undef tokens_overrun
         else Ok (digit_or_zero c1)
    else Ok 0.
Proof.
  unfold strtoul_number, strtoul_prefix, is_hex_char, digit_or_zero.
  destruct (Z.eqb_spec c1 48) as [->|Hne].
  - change (hex_digit 48) with (Some 0). cbn [andb].
    destruct ((c2 =? 120) || (c2 =? 88)); cbn [bind strtoul_digits].
    + rewrite orb_true_r. reflexivity.
    + change (hex_digit 48) with (Some 0). rewrite orb_false_r.
      destruct (hex_digit c2); reflexivity.
  - cbn [bind strtoul_digits andb]. rewrite orb_false_r.
    destruct (hex_digit c1) as [d1|]; [|reflexivity].
    destruct (hex_digit c2); [reflexivity|].
    rewrite Z.mul_0_r, Z.add_0_l. reflexivity.
Qed.

(** [strtoul] on a full array: the digit value of the first character when
    the conversion ends at one of the two, an access behind the array when
    it does not. *)
Lemma strtoul_mem_two (c1 c2 : Z) :
  strtoul_mem [c1; c2]
  = if stops_within c1 c2 then Ok (digit_or_zero c1) else Undef tokens_overrun.
Proof.
  unfold strtoul_mem, stops_within. cbn [strtoul_spaces].
  destruct (isspace c1) eqn:E1.
  - (* white space first *)
    assert (H0 : digit_or_zero c1 = 0).
    { unfold digit_or_zero. rewrite (isspace_not_hex c1 E1). reflexivity. }
    rewrite H0.
    destruct (isspace c2) eqn:E2; [reflexivity|]. cbn [bind negb andb].
    unfold strtoul_sign, is_sign.
    destruct (c2 =? 45) eqn:Em; [reflexivity|].
    destruct (c2 =? 43) eqn:Ep; [reflexivity|].
    cbn [snd fst orb negb andb]. rewrite strtoul_number_one.
    destruct (is_hex_char c2); reflexivity.
  - cbn [bind]. unfold strtoul_sign, is_sign.
    destruct (Z.eqb_spec c1 45) as [->|Hm].
    + (* minus *)
      cbn [snd fst orb]. rewrite strtoul_number_one.
      destruct (is_hex_char c2); reflexivity.
    + destruct (Z.eqb_spec c1 43) as [->|Hp].
      * cbn [snd fst orb]. rewrite strtoul_number_one.
        destruct (is_hex_char c2); reflexivity.
      * cbn [snd fst orb]. rewrite strtoul_number_two.
        destruct (is_hex_char c1) eqn:Eh1.
        -- destruct (is_hex_char c2) eqn:Eh2; [reflexivity|].
           cbn [orb negb andb].
           destruct ((c1 =? 48) && ((c2 =? 120) || (c2 =? 88))); [reflexivity|].
           cbn [bind negb]. pose proof (digit_or_zero_range c1) as Hr.
           replace (ULONG_MAX <? digit_or_zero c1) with false
             by (symmetry; apply Z.ltb_ge; unfold ULONG_MAX; lia).
           reflexivity.
        -- cbn [bind]. unfold digit_or_zero, is_hex_char in *.
           destruct (hex_digit c1); [discriminate|]. reflexivity.
Qed.

Lemma stops_within_nul (c : Z) : stops_within c NUL = true.
Proof.
  unfold stops_within. change (isspace NUL) with false.
  change (is_sign NUL) with false. change (is_hex_char NUL) with false.
  change (NUL =? 120) with false. change (NUL =? 88) with false.
  cbn [negb andb orb]. rewrite andb_false_r.
  destruct (isspace c), (is_sign c), (is_hex_char c); reflexivity.
Qed.

(** [strtoul] on an array that holds one character and the NUL behind it. *)
Lemma strtoul_mem_one (c : Z) : strtoul_mem [c; NUL] = Ok (digit_or_zero c).
Proof. rewrite strtoul_mem_two, stops_within_nul. reflexivity. Qed.

(** *** The loop of hybrid_to_wildcard *)

Lemma literal_chars_snoc (t : list Z) (c : Z) :
  literal_chars (t ++ [c]) = literal_chars t ++ (if c =? QMARK then [] else [c]).
Proof.
  unfold literal_chars. rewrite filter_app. simpl.
  destruct (c =? QMARK); reflexivity.
Qed.

Lemma has_qmark_snoc (t : list Z) (c : Z) :
  has_qmark (t ++ [c]) = has_qmark t || (c =? QMARK).
Proof.
  unfold has_qmark. rewrite existsb_app. simpl. rewrite orb_false_r. reflexivity.
Qed.

Lemma hybrid_run_cons (w : Z) (st : hybrid_state) (c : Z) (l : list Z) :
  hybrid_run w st (c :: l) = st1 <- hybrid_step w st c ;; hybrid_run w st1 l.
Proof.
  unfold hybrid_run. cbn [hybrid_loop].
  destruct (hybrid_step w st c); reflexivity.
Qed.

(** The conversion at the end of the token [rev cur]: what [strtoul] does
    on the buffer the invariant describes. *)
Lemma parse_inv_gen_strtoul (w : Z) (cur : list Z) (st : hybrid_state) (o : list Z) :
  parse_inv_gen w cur st o ->
  match literal_chars (rev cur) with
  | [] => n_tokens st = 0%nat
  | c :: _ =>
      n_tokens st <> 0%nat /\
      strtoul_mem (tokens_mem (tokens st))
      = if token_reads_inside (rev cur) then Ok (digit_or_zero c)
        else Undef tokens_overrun
  end.
Proof.
  intros [Hbuf [Hn _]]. unfold token_reads_inside, tokens_mem.
  destruct (literal_chars (rev cur)) as [|a [|b [|c r]]];
    cbn [buffer_holds length] in *.
  - exact Hn.
  - split; [lia|]. rewrite Hbuf. cbn [fst snd]. apply strtoul_mem_one.
  - split; [lia|]. rewrite Hbuf. cbn [fst snd]. apply strtoul_mem_two.
  - contradiction.
Qed.

(** What the code behind the loop does for the token [rev cur]. *)
Lemma parse_inv_gen_finish (w : Z) (cur : list Z) (st : hybrid_state) (o : list Z) :
  parse_inv_gen w cur st o ->
  hybrid_finish st
  = if token_reads_inside (rev cur)
    then Ok (o ++ match cur with [] => [] | _ :: _ => token_bytes w (rev cur) end)
    else Undef tokens_overrun.
Proof.
  intros Hinv. pose proof (parse_inv_gen_strtoul w cur st o Hinv) as Hs.
  destruct Hinv as [_ [_ [_ Hout]]]. unfold hybrid_finish, token_bytes.
  rewrite Hout. destruct cur as [|c0 cur0].
  - cbn [rev literal_chars filter] in Hs. rewrite Hs. simpl. reflexivity.
  - destruct (literal_chars (rev (c0 :: cur0))) as [|a r] eqn:E.
    + rewrite Hs. unfold token_reads_inside. rewrite E. cbn [Nat.eqb].
      rewrite app_nil_r. reflexivity.
    + destruct Hs as [Hn Hs].
      destruct (Nat.eqb_spec (n_tokens st) 0) as [H0|_]; [contradiction|].
      rewrite Hs. destruct (token_reads_inside (rev (c0 :: cur0))); [|reflexivity].
      cbn [bind]. rewrite uchar_small, <- app_assoc; [reflexivity|].
      pose proof (digit_or_zero_range a). lia.
Qed.

Lemma step_space (w : Z) (cur : list Z) (st : hybrid_state) (o : list Z) :
  parse_inv_gen w cur st o ->
  if token_reads_inside (rev cur)
  then exists st1, hybrid_step w st SPACE = Ok st1 /\
         parse_inv_gen w [] st1
           (o ++ match cur with [] => [] | _ :: _ => token_bytes w (rev cur) end)
  else hybrid_step w st SPACE = Undef tokens_overrun.
Proof.
  intros Hinv. pose proof (parse_inv_gen_finish w cur st o Hinv) as Hfin.
  destruct Hinv as [Hbuf [Hn [_ Hout]]].
  unfold hybrid_step. rewrite Z.eqb_refl. unfold hybrid_finish in Hfin.
  destruct (Nat.eqb (n_tokens st) 0) eqn:En.
  - destruct (token_reads_inside (rev cur)); [|discriminate].
    injection Hfin as Hfin.
    eexists. split; [reflexivity|].
    unfold parse_inv_gen. cbn [rev literal_chars filter has_qmark existsb
      tokens n_tokens prev_was_wildcard out buffer_holds length].
    rewrite app_nil_r, <- Hfin.
    repeat split; try reflexivity.
    apply Nat.eqb_eq in En. rewrite Hn in En.
    destruct (literal_chars (rev cur)) as [|a r]; [exact Hbuf|discriminate].
  - destruct (strtoul_mem (tokens_mem (tokens st))) as [v|e|u];
      cbn [bind] in Hfin |- *.
    + destruct (token_reads_inside (rev cur)); [|discriminate].
      injection Hfin as Hfin.
      eexists. split; [reflexivity|].
      unfold parse_inv_gen. cbn [rev literal_chars filter has_qmark existsb
        tokens n_tokens prev_was_wildcard out buffer_holds length snd].
      rewrite app_nil_r, <- Hfin. repeat split; reflexivity.
    + destruct (token_reads_inside (rev cur)); discriminate.
    + destruct (token_reads_inside (rev cur)); [discriminate|].
      injection Hfin as Hfin. subst u. reflexivity.
Qed.

Lemma step_qmark (w : Z) (cur : list Z) (st : hybrid_state) (o : list Z) :
  parse_inv_gen w cur st o ->
  exists st1, hybrid_step w st QMARK = Ok st1 /\
    parse_inv_gen w (QMARK :: cur) st1 o.
Proof.
  intros [Hbuf [Hn [Hprev Hout]]].
  unfold hybrid_step. change (QMARK =? SPACE) with false. rewrite Z.eqb_refl.
  cbv beta iota.
  assert (Hlc : literal_chars (rev (QMARK :: cur)) = literal_chars (rev cur)).
  { cbn [rev]. rewrite literal_chars_snoc, Z.eqb_refl, app_nil_r. reflexivity. }
  assert (Hq : has_qmark (rev (QMARK :: cur)) = true).
  { cbn [rev]. rewrite has_qmark_snoc, Z.eqb_refl. apply orb_true_r. }
  destruct (prev_was_wildcard st) eqn:Ep.
  - exists st. split; [reflexivity|]. unfold parse_inv_gen.
    rewrite Hlc, Hq. rewrite <- Hprev in Hout.
    repeat split; assumption.
  - eexists. split; [reflexivity|]. unfold parse_inv_gen.
    cbn [tokens n_tokens prev_was_wildcard out]. rewrite Hlc, Hq.
    rewrite <- Hprev in Hout. rewrite Hout, app_nil_r.
    repeat split; assumption.
Qed.

Lemma step_literal (w : Z) (cur : list Z) (st : hybrid_state) (o : list Z) (c : Z) :
  c <> SPACE -> c <> QMARK ->
  parse_inv_gen w cur st o ->
  if Nat.ltb (length (literal_chars (rev cur))) 2
  then exists st1, hybrid_step w st c = Ok st1 /\ parse_inv_gen w (c :: cur) st1 o
  else hybrid_step w st c = Undef tokens_overrun.
Proof.
  intros Hsp Hq [Hbuf [Hn [Hprev Hout]]].
  unfold hybrid_step.
  rewrite (proj2 (Z.eqb_neq _ _) Hsp), (proj2 (Z.eqb_neq _ _) Hq). rewrite Hn.
  assert (Hlc : literal_chars (rev (c :: cur)) = literal_chars (rev cur) ++ [c]).
  { cbn [rev]. rewrite literal_chars_snoc, (proj2 (Z.eqb_neq _ _) Hq). reflexivity. }
  assert (Hhq : has_qmark (rev (c :: cur)) = has_qmark (rev cur)).
  { cbn [rev]. rewrite has_qmark_snoc, (proj2 (Z.eqb_neq _ _) Hq).
    apply orb_false_r. }
  destruct (literal_chars (rev cur)) as [|a [|b [|d r]]] eqn:E;
    cbn [length Nat.ltb Nat.leb tokens_store bind buffer_holds app] in *.
  - eexists. split; [reflexivity|]. unfold parse_inv_gen.
    cbn [tokens n_tokens prev_was_wildcard out]. rewrite Hlc, Hhq.
    cbn [buffer_holds length]. rewrite Hbuf.
    repeat split; assumption.
  - eexists. split; [reflexivity|]. unfold parse_inv_gen.
    cbn [tokens n_tokens prev_was_wildcard out]. rewrite Hlc, Hhq, Hbuf.
    cbn [buffer_holds length fst].
    repeat split; assumption.
  - reflexivity.
  - contradiction.
Qed.

(** A token that already has three characters for the buffer does not fit
    it, whatever follows. *)
Lemma split_tokens_long (cur l : list Z) :
  (3 <= length (literal_chars (rev cur)))%nat ->
  exists t rest, split_tokens cur l = t :: rest /\
                 (3 <= length (literal_chars t))%nat.
Proof.
  intros Hlen.
  assert (Hcur : cur <> []) by (intros ->; simpl in Hlen; lia).
  destruct (split_tokens_head l cur Hcur) as [pre [rest H]].
  exists (rev cur ++ pre), rest. split; [exact H|].
  unfold literal_chars in *. rewrite filter_app, length_app. lia.
Qed.

Lemma long_token_reads_outside (t : list Z) :
  (3 <= length (literal_chars t))%nat -> token_reads_inside t = false.
Proof.
  unfold token_reads_inside.
  destruct (literal_chars t) as [|a [|b [|c r]]]; simpl; intros H;
    try reflexivity; lia.
Qed.

Lemma long_token_unfit (t : list Z) :
  (3 <= length (literal_chars t))%nat -> token_fits t = false.
Proof. intros H. unfold token_fits. apply Nat.leb_gt. lia. Qed.

(** From any state of the invariant the rest of the run writes the bytes
    of the remaining tokens when the conversion of each ends inside the
    buffer, and accesses the buffer behind its end when one does not. *)
Lemma hybrid_run_general (w : Z) (l : list Z) : forall cur st o,
  parse_inv_gen w cur st o ->
  hybrid_run w st l
  = if forallb token_reads_inside (split_tokens cur l)
    then Ok (o ++ concat (map (token_bytes w) (split_tokens cur l)))
    else Undef tokens_overrun.
Proof.
  induction l as [|c l IH]; intros cur st o Hinv.
  - unfold hybrid_run. cbn [hybrid_loop bind split_tokens].
    rewrite (parse_inv_gen_finish _ _ _ _ Hinv). destruct cur as [|c0 cur0].
    + reflexivity.
    + cbn [forallb map concat]. rewrite andb_true_r, app_nil_r. reflexivity.
  - rewrite hybrid_run_cons. cbn [split_tokens].
    destruct (Z.eqb_spec c SPACE) as [Hsp|Hsp].
    + subst c. pose proof (step_space _ _ _ _ Hinv) as Hstep.
      destruct cur as [|c0 cur0].
      * destruct Hstep as [st1 [Hstep Hinv1]]. rewrite Hstep. cbn [bind].
        rewrite app_nil_r in Hinv1. exact (IH _ _ _ Hinv1).
      * cbn [forallb map concat].
        destruct (token_reads_inside (rev (c0 :: cur0))).
        -- destruct Hstep as [st1 [Hstep Hinv1]]. rewrite Hstep. cbn [bind andb].
           rewrite (IH _ _ _ Hinv1).
           destruct (forallb token_reads_inside (split_tokens [] l)); [|reflexivity].
           rewrite <- app_assoc. reflexivity.
        -- rewrite Hstep. reflexivity.
    + destruct (Z.eqb_spec c QMARK) as [Hq|Hq].
      * subst c. destruct (step_qmark _ _ _ _ Hinv) as [st1 [Hstep Hinv1]].
        rewrite Hstep. cbn [bind]. exact (IH _ _ _ Hinv1).
      * pose proof (step_literal _ _ _ _ c Hsp Hq Hinv) as Hstep.
        destruct (Nat.ltb_spec (length (literal_chars (rev cur))) 2) as [Hlt|Hge].
        -- destruct Hstep as [st1 [Hstep Hinv1]].
           rewrite Hstep. cbn [bind]. exact (IH _ _ _ Hinv1).
        -- rewrite Hstep. cbn [bind].
           destruct (split_tokens_long (c :: cur) l) as [t [rest [Ht Hlen]]].
           { cbn [rev]. rewrite literal_chars_snoc, (proj2 (Z.eqb_neq _ _) Hq),
               length_app. simpl. lia. }
           rewrite Ht. cbn [forallb].
           rewrite (long_token_reads_outside t Hlen). reflexivity.
Qed.

Lemma parse_inv_gen_init (w : Z) : parse_inv_gen w [] hybrid_init [].
Proof. unfold parse_inv_gen, hybrid_init. simpl. repeat split; reflexivity. Qed.

(** The outcome of the hybrid constructor on every string. *)
Lemma memory_signature_hybrid_outcome (s : string) :
  memory_signature_hybrid s
  = if forallb token_reads_inside (tokens_of s)
    then Ok (mk_signature (concat (map (token_bytes 0) (tokens_of s))) 0)
    else Undef tokens_overrun.
Proof.
  unfold memory_signature_hybrid.
  rewrite find_wildcard_hybrid_zero. cbv beta iota delta [bind].
  change (hybrid_to_wildcard (chars s) 0) with (hybrid_run 0 hybrid_init (chars s)).
  rewrite (hybrid_run_general 0 (chars s) [] _ [] (parse_inv_gen_init 0)).
  unfold tokens_of.
  destruct (forallb token_reads_inside (split_tokens [] (chars s))); reflexivity.
Qed.

(** *** strtoul on a terminated string *)

Lemma strtoul_spaces_terminated (behind : list Z) (s : list Z) :
  strtoul_spaces (s ++ NUL :: behind) = Ok (skip_spaces s ++ NUL :: behind).
Proof.
  induction s as [|c s IH]; simpl; [reflexivity|].
  destruct (isspace c); [exact IH|reflexivity].
Qed.

Lemma strtoul_sign_terminated (behind : list Z) (s : list Z) :
  strtoul_sign (s ++ NUL :: behind)
  = (fst (strtoul_sign s), snd (strtoul_sign s) ++ NUL :: behind).
Proof.
  destruct s as [|c r]; simpl; [reflexivity|].
  destruct (c =? 45); [reflexivity|]. destruct (c =? 43); reflexivity.
Qed.

Lemma strtoul_digits_terminated (behind : list Z) (s : list Z) : forall acc,
  strtoul_digits acc (s ++ NUL :: behind) = Ok (hex_digits acc s).
Proof.
  induction s as [|c s IH]; intros acc; simpl; [reflexivity|].
  destruct (hex_digit c); [apply IH|reflexivity].
Qed.

Lemma strtoul_number_terminated (behind : list Z) (s : list Z) :
  strtoul_number (s ++ NUL :: behind)
  = Ok (hex_digits 0
          match s with
          | z :: x :: d :: r =>
              if (z =? 48) && ((x =? 120) || (x =? 88)) &&
                 match hex_digit d with Some _ => true | None => false end
              then d :: r else s
          | _ => s
          end).
Proof.
  unfold strtoul_number, strtoul_prefix.
  destruct s as [|z [|x [|d r]]]; cbn [app].
  - reflexivity.
  - destruct (z =? 48); cbn [bind];
      apply (strtoul_digits_terminated behind [z]).
  - destruct (z =? 48); cbn [andb]; [destruct ((x =? 120) || (x =? 88))|];
      cbn [bind]; apply (strtoul_digits_terminated behind [z; x]).
  - destruct (z =? 48); cbn [andb].
    + destruct ((x =? 120) || (x =? 88)); cbn [andb].
      * destruct (hex_digit d) eqn:E; cbn [bind].
        -- apply (strtoul_digits_terminated behind (d :: r)).
        -- apply (strtoul_digits_terminated behind (z :: x :: d :: r)).
      * cbn [bind]. apply (strtoul_digits_terminated behind (z :: x :: d :: r)).
    + cbn [bind]. apply (strtoul_digits_terminated behind (z :: x :: d :: r)).
Qed.

(** Where the array holds a terminator, [strtoul] returns the value of the
    C string in front of it, whatever lies behind. *)
Lemma strtoul_mem_terminated (s behind : list Z) :
  strtoul_mem (s ++ NUL :: behind) = Ok (strtoul16 s).
Proof.
  unfold strtoul_mem, strtoul16.
  rewrite strtoul_spaces_terminated. cbn [bind].
  rewrite strtoul_sign_terminated. cbn [fst snd].
  rewrite strtoul_number_terminated. cbn [bind].
  change (match skip_spaces s with
          | [] => (false, skip_spaces s)
          | c :: r =>
              if c =? 45 then (true, r)
              else if c =? 43 then (false, r) else (false, skip_spaces s)
          end) with (strtoul_sign (skip_spaces s)).
  destruct (strtoul_sign (skip_spaces s)) as [neg s2]. reflexivity.
Qed.

(** *** The pattern the hybrid constructor stores *)

(** The number of bytes written never exceeds the number of characters
    read, so every write through [my_pat] stays inside the buffer of
    [pattern.size()] bytes. *)
Lemma hybrid_loop_fits (w : Z) (l : list Z) : forall st st',
  hybrid_loop w st l = Ok st' ->
  (length (out st') + (if Nat.eqb (n_tokens st') 0 then 0 else 1)
   <= length (out st) + (if Nat.eqb (n_tokens st) 0 then 0 else 1) + length l)%nat.
Proof.
  induction l as [|c l IH]; intros st st' H; simpl in H.
  - inversion H; subst. simpl. lia.
  - destruct (hybrid_step w st c) as [st1|e|u] eqn:E; simpl in H; try discriminate.
    apply IH in H. simpl length. revert E. unfold hybrid_step.
    destruct (c =? SPACE).
    + destruct (Nat.eqb (n_tokens st) 0) eqn:En.
      * intros E; inversion E; subst st1; simpl in H; lia.
      * destruct (strtoul_mem (tokens_mem (tokens st))) as [v|e|u]; cbn [bind];
          intros E; inversion E; subst st1.
        simpl in H. rewrite length_app in H. simpl in H. lia.
    + destruct (c =? QMARK).
      * destruct (prev_was_wildcard st); intros E; inversion E; subst st1;
          simpl in H; rewrite ?length_app in H; simpl in H; lia.
      * destruct (tokens_store (tokens st) (n_tokens st) c) as [t|e|u];
          simpl; intros E; inversion E; subst st1.
        simpl in H. destruct (Nat.eqb (n_tokens st) 0); lia.
Qed.

(** X21: the signature the hybrid constructor builds has no more bytes
    than the string has characters, the size of the buffer it allocates. *)
Lemma hybrid_pattern_fits (s : string) (sig : memory_signature) :
  memory_signature_hybrid s = Ok sig ->
  (length (_pattern sig) <= length (chars s))%nat.
Proof.
  unfold memory_signature_hybrid. rewrite find_wildcard_hybrid_zero.
  cbv beta iota delta [bind]. unfold hybrid_to_wildcard.
  destruct (hybrid_loop 0 hybrid_init (chars s)) as [st|e|u] eqn:E; try discriminate.
  apply hybrid_loop_fits in E. simpl in E. cbn [bind]. unfold hybrid_finish.
  destruct (Nat.eqb (n_tokens st) 0); cbn [bind].
  - intros H. injection H as <-. cbn [_pattern]. lia.
  - destruct (strtoul_mem (tokens_mem (tokens st))) as [v|e|u]; cbn [bind];
      try discriminate.
    intros H. injection H as <-. cbn [_pattern].
    rewrite length_app. simpl. lia.
Qed.

Lemma concat_map_singleton {A B : Type} (f : A -> B) (g : A -> list B) (l : list A) :
  (forall x, In x l -> g x = [f x]) -> concat (map g l) = map f l.
Proof.
  induction l as [|x l IH]; intros H; simpl; [reflexivity|].
  rewrite (H x (or_introl eq_refl)). simpl. f_equal.
  apply IH. intros y Hy. apply H. right. exact Hy.
Qed.

Lemma all_qmark_literal_chars (t : list Z) :
  forallb (fun c => c =? QMARK) t = true -> literal_chars t = [].
Proof.
  induction t as [|c t IH]; simpl; [reflexivity|]. intros H.
  apply andb_prop in H. destruct H as [Hc Ht]. rewrite Hc. simpl. exact (IH Ht).
Qed.

(** A run of ['?'] puts nothing in the buffer and leaves one sentinel. *)
Lemma wildcard_token_bytes (w : Z) (t : list Z) :
  wildcard_token t = true ->
  token_reads_inside t = true /\ token_bytes w t = [w].
Proof.
  unfold wildcard_token, token_reads_inside, token_bytes. intros H.
  apply andb_prop in H. destruct H as [Hne Hall].
  rewrite (all_qmark_literal_chars t Hall).
  split; [reflexivity|]. destruct t as [|c t]; [discriminate|].
  simpl in Hall. apply andb_prop in Hall. destruct Hall as [Hc _].
  unfold has_qmark. simpl. rewrite Hc. reflexivity.
Qed.

(** A plain token is converted inside the buffer to the digit value of its
    first character. *)
Lemma plain_token_bytes (w : Z) (t : list Z) :
  plain_token t = true ->
  wildcard_token t = false /\ token_reads_inside t = true /\
  token_bytes w t = [token_byte w t].
Proof.
  unfold plain_token, token_reads_inside, token_bytes, token_byte, wildcard_token,
    literal_chars, has_qmark.
  destruct t as [|c1 [|c2 [|c3 t]]]; try discriminate; intros H.
  - apply negb_true_iff in H. simpl. rewrite H. simpl. repeat split; reflexivity.
  - apply andb_prop in H. destruct H as [H Hs].
    apply andb_prop in H. destruct H as [H1 H2].
    apply negb_true_iff in H1. apply negb_true_iff in H2.
    simpl. rewrite H1, H2. simpl.
    split; [reflexivity|]. split; [exact Hs|reflexivity].
Qed.

Lemma hex_digit_token_plain (t : list Z) :
  hex_digit_token t = true -> plain_token t = true /\ hex_value t = digit_or_zero (hd 0 t).
Proof.
  unfold hex_digit_token, plain_token, hex_value, digit_or_zero.
  destruct t as [|c [|c2 t]]; try discriminate. intros H. simpl.
  destruct (is_hex_char_digit c H) as [d Hd]. rewrite Hd.
  split; [|lia]. apply negb_true_iff. apply Z.eqb_neq.
  apply hex_digit_some in Hd. unfold QMARK. lia.
Qed.

Lemma token_ok_bytes (w : Z) (t : list Z) :
  token_ok t = true ->
  token_reads_inside t = true /\ token_bytes w t = [token_byte w t].
Proof.
  unfold token_ok. intros H. destruct (wildcard_token t) eqn:E.
  - destruct (wildcard_token_bytes w t E) as [H1 H2]. split; [exact H1|].
    rewrite H2. unfold token_byte. rewrite E. reflexivity.
  - simpl in H. destruct (plain_token_bytes w t H) as [_ [H1 H2]].
    split; assumption.
Qed.

Lemma token_wf_ok (t : list Z) : token_wf t = true -> token_ok t = true.
Proof.
  unfold token_wf, token_ok. intros H. apply orb_true_iff in H.
  apply orb_true_iff. destruct H as [H|H]; [left; exact H|].
  right. apply hex_digit_token_plain in H. tauto.
Qed.

Lemma token_wf_byte (w : Z) (t : list Z) :
  token_wf t = true ->
  token_byte w t = if wildcard_token t then w else hex_value t.
Proof.
  unfold token_wf, token_byte. intros H.
  destruct (wildcard_token t) eqn:E; [reflexivity|].
  simpl in H. apply hex_digit_token_plain in H. destruct H as [_ H].
  rewrite H. destruct t; reflexivity.
Qed.

(** The signature built from tokens that are runs of ['?'] or plain. *)
Lemma memory_signature_hybrid_tokens (s : string) :
  Forall (fun t => token_ok t = true) (tokens_of s) ->
  memory_signature_hybrid s = Ok (mk_signature (map (token_byte 0) (tokens_of s)) 0).
Proof.
  intros Hok. rewrite memory_signature_hybrid_outcome.
  rewrite Forall_forall in Hok.
  replace (forallb token_reads_inside (tokens_of s)) with true.
  - rewrite (concat_map_singleton (token_byte 0)); [reflexivity|].
    intros t Ht. apply token_ok_bytes. apply Hok. exact Ht.
  - symmetry. apply forallb_forall. intros t Ht.
    apply (token_ok_bytes 0). apply Hok. exact Ht.
Qed.

(** C5, as amended: when every whitespace-delimited token is a run of ['?']
    or a single hexadecimal digit, the constructor stores one byte for each
    token, the sentinel for a run of ['?'] whatever its length and the
    digit value for a hexadecimal token; the last token needs no space
    after it. *)
Theorem hybrid_one_byte_per_token (s : string) :
  forallb token_wf (tokens_of s) = true ->
  exists sig, memory_signature_hybrid s = Ok sig /\
    length (_pattern sig) = length (tokens_of s) /\
    _pattern sig =
      map (fun t => if wildcard_token t then _wildcard sig else hex_value t)
          (tokens_of s).
Proof.
  intros Hwf. apply forallb_Forall_true in Hwf.
  exists (mk_signature (map (token_byte 0) (tokens_of s)) 0).
  split; [|split].
  - apply memory_signature_hybrid_tokens.
    eapply Forall_impl; [|exact Hwf]. intros t Ht. apply token_wf_ok. exact Ht.
  - cbn [_pattern]. apply length_map.
  - cbn [_pattern _wildcard]. apply map_ext_in. intros t Ht.
    rewrite Forall_forall in Hwf. apply token_wf_byte. apply Hwf. exact Ht.
Qed.

Lemma hybrid_one_byte_per_token_witness :
  forallb token_wf (tokens_of "? ?? ??? f") = true /\
  exists sig, memory_signature_hybrid "? ?? ??? f" = Ok sig /\
    length (_pattern sig) = length (tokens_of "? ?? ??? f") /\
    _pattern sig =
      map (fun t => if wildcard_token t then _wildcard sig else hex_value t)
          (tokens_of "? ?? ??? f").
Proof.
  split; [reflexivity|].
  apply (hybrid_one_byte_per_token "? ?? ??? f"). reflexivity.
Defined.

(** C5, as stated, fails: the single token ["?1"] gives two bytes, the
    sentinel and 0x01, and the three digits of ["123"] overrun the
    two-character buffer. *)
Lemma hybrid_length_counterexample :
  ~ hybrid_length_claim "?1" /\ ~ hybrid_length_claim "123".
Proof.
  split; intros [sig [H1 H2]]; vm_compute in H1.
  - inversion H1; subst sig. vm_compute in H2. discriminate.
  - discriminate.
Qed.

(** The example of the specification for runs of ['?']. *)
Example hybrid_collapses_question_marks :
  memory_signature_hybrid "? ?? ???" = Ok (mk_signature [0; 0; 0] 0).
Proof. reflexivity. Qed.

(** C3, as amended: an input with a malformed token, in which every token
    is a run of ['?'] or one or two other characters whose conversion ends
    inside the two-character buffer, raises no exception, the header has
    none for it: a signature is built in which each such token is stored as
    the digit value of its first character, 0 when that is no hexadecimal
    digit. *)
Theorem malformed_token_is_converted (s : string) :
  has_malformed_token s ->
  forallb token_ok (tokens_of s) = true ->
  memory_signature_hybrid s
    = Ok (mk_signature (map (token_byte 0) (tokens_of s)) 0).
Proof.
  intros _ Hok. apply memory_signature_hybrid_tokens.
  apply forallb_Forall_true. exact Hok.
Qed.

Lemma malformed_token_is_converted_witness :
  has_malformed_token "ZZ ?? 1G" /\
  forallb token_ok (tokens_of "ZZ ?? 1G") = true /\
  memory_signature_hybrid "ZZ ?? 1G"
    = Ok (mk_signature (map (token_byte 0) (tokens_of "ZZ ?? 1G")) 0) /\
  map (token_byte 0) (tokens_of "ZZ ?? 1G") = [0; 0; 1].
Proof.
  split; [reflexivity|]. split; [reflexivity|]. split; [|reflexivity].
  apply (malformed_token_is_converted "ZZ ?? 1G"); reflexivity.
Defined.

(** C3, as stated, fails: ["ZZ"] holds no hexadecimal digit and no ['?'],
    and the constructor returns the one-byte signature [{0}]. *)
Lemma malformed_token_counterexample :
  has_malformed_token "ZZ" /\
  memory_signature_hybrid "ZZ" = Ok (mk_signature [0] 0) /\
  ~ hybrid_rejects "ZZ".
Proof.
  split; [reflexivity|]. split; [reflexivity|].
  intros [e H]. vm_compute in H. discriminate.
Qed.

(** C9: for the hybrid text ["01 ?? 13 14"] the parser fills [tokens] with
    the two digits of ["01"] and hands the array to [strtoul] without a
    terminator: the conversion runs behind the array, and the byte stored
    depends on what lies there, where the masked notation with bytes
    [{0x01, 0x00, 0x13, 0x14}], mask [{1, 0, 1, 1}] and unknown marker 0
    builds the signature [{0x01, 0x00, 0x13, 0x14}] with sentinel 0.  With
    the single digits of ["1 ?? 3 4"], which leave room for the terminator,
    the two notations build the same signature. *)
Theorem hybrid_example_reads_behind_tokens :
  strtoul_mem (tokens_mem (48, 49)) = Undef tokens_overrun /\
  memory_signature_hybrid "01 ?? 13 14" = Undef tokens_overrun /\
  memory_signature_byte_mask [1; 0; 19; 20] [1; 0; 1; 1] 0
    = Ok (mk_signature [1; 0; 19; 20] 0) /\
  memory_signature_hybrid "1 ?? 3 4"
    = memory_signature_byte_mask [1; 0; 3; 4] [1; 0; 1; 1] 0.
Proof. repeat split; reflexivity. Qed.

(** * Further properties of the header *)

(** ** find on any signature *)

Lemma first_or_last_ext (P Q : nat -> Prop) (last r : nat) :
  (forall q, P q <-> Q q) -> first_or_last P last r -> first_or_last Q last r.
Proof.
  intros HPQ [[Hlt [Hr Hmin]]|[Heq Hno]]; [left|right].
  - split; [exact Hlt|]. split; [apply HPQ; exact Hr|].
    intros q Hq HQ. apply (Hmin q Hq). apply HPQ. exact HQ.
  - split; [exact Heq|]. intros q HQ. apply (Hno q). apply HPQ. exact HQ.
Qed.

Lemma find_nonempty_spec (sig : memory_signature) (range : list Z) :
  _pattern sig <> [] ->
  exists r, find sig range = Ok r /\
            first_or_last (matches_at sig range) (length range) r.
Proof.
  intros Hs.
  destruct (search_from_spec (find_pred (_wildcard sig)) range (_pattern sig) Hs
              (length range) 0%nat eq_refl) as [r [Hr Hspec]].
  { intros q Hq. lia. }
  exists r. split.
  - unfold find, std_search. destruct (_pattern sig); [contradiction|exact Hr].
  - eapply first_or_last_ext; [|exact Hspec].
    intros q. apply full_match_matches_at.
Qed.

(** The value [find] returns is determined by its match condition. *)
Lemma find_at (sig : memory_signature) (range : list Z) (p : nat) :
  _pattern sig <> [] ->
  matches_at sig range p ->
  (forall q, (q < p)%nat -> ~ matches_at sig range q) ->
  find sig range = Ok p.
Proof.
  intros Hs Hm Hmin.
  destruct (find_nonempty_spec sig range Hs) as [r [Hr [[Hlt [Hmr Hminr]]|[_ Hno]]]].
  - destruct (Nat.lt_trichotomy r p) as [H|[H|H]].
    + exfalso. exact (Hmin r H Hmr).
    + subst r. exact Hr.
    + exfalso. exact (Hminr p H Hm).
  - exfalso. exact (Hno p Hm).
Qed.

Lemma find_none (sig : memory_signature) (range : list Z) :
  _pattern sig <> [] ->
  (forall q, ~ matches_at sig range q) ->
  find sig range = Ok (length range).
Proof.
  intros Hs Hno.
  destruct (find_nonempty_spec sig range Hs) as [r [Hr [[_ [Hmr _]]|[Heq _]]]].
  - exfalso. exact (Hno r Hmr).
  - subst r. exact Hr.
Qed.

(** X1: for every signature and range [find] returns a position, and a
    position other than [last] leaves room for the whole pattern before
    [last]. *)
Theorem find_result_in_range (sig : memory_signature) (range : list Z) :
  exists r, find sig range = Ok r /\
    (r = length range \/ (r + size sig <= length range)%nat).
Proof.
  destruct (_pattern sig) as [|y s] eqn:E.
  - exists (length range). split; [|left; reflexivity].
    unfold find. rewrite E. reflexivity.
  - assert (Hs : _pattern sig <> []) by (rewrite E; discriminate).
    destruct (find_nonempty_spec sig range Hs) as [r [Hr [[_ [Hm _]]|[Heq _]]]];
      exists r; (split; [exact Hr|]).
    + right. unfold size. apply matches_at_fits; assumption.
    + left. exact Heq.
Qed.

(** X2: a match found in a range is still the result when bytes are
    appended to the range. *)
Theorem find_stable_under_append (sig : memory_signature) (range more : list Z)
  (r : nat) :
  find sig range = Ok r -> (r < length range)%nat ->
  find sig (range ++ more) = Ok r.
Proof.
  intros Hr Hlt.
  assert (Hs : _pattern sig <> []).
  { intros E. unfold find in Hr. rewrite E in Hr. inversion Hr. lia. }
  destruct (find_nonempty_spec sig range Hs) as [r' [Hr' Hspec]].
  rewrite Hr in Hr'. inversion Hr'; subst r'. clear Hr'.
  destruct Hspec as [[_ [Hm Hmin]]|[Heq _]]; [|lia].
  pose proof (matches_at_fits sig range r Hs Hm) as Hfit.
  apply find_at; [exact Hs | |].
  - intros i y Hy. destruct (Hm i y Hy) as [x [Hx Hb]]. exists x.
    split; [|exact Hb]. rewrite nth_error_app1; [exact Hx|].
    apply nth_error_Some. rewrite Hx. discriminate.
  - intros q Hq Hmq. apply (Hmin q Hq).
    intros i y Hy. destruct (Hmq i y Hy) as [x [Hx Hb]]. exists x.
    split; [|exact Hb]. rewrite nth_error_app1 in Hx; [exact Hx|].
    assert (Hi : (i < length (_pattern sig))%nat).
    { apply nth_error_Some. rewrite Hy. discriminate. }
    lia.
Qed.

Lemma find_stable_under_append_witness :
  find (mk_signature [19; 0] 0) [1; 19; 7] = Ok 1%nat /\
  (1 < length [1; 19; 7]%Z)%nat /\
  find (mk_signature [19; 0] 0) ([1; 19; 7] ++ [19; 0; 19]) = Ok 1%nat.
Proof.
  split; [reflexivity|]. split; [simpl; lia|].
  apply (find_stable_under_append (mk_signature [19; 0] 0) [1; 19; 7] [19; 0; 19] 1).
  - reflexivity.
  - simpl. lia.
Defined.

(** X3: a pattern made of the sentinel alone matches at the start of every
    range that is at least as long, and nowhere in a shorter one. *)
Theorem find_all_wildcards (sig : memory_signature) (range : list Z) :
  _pattern sig <> [] ->
  Forall (fun y => y = _wildcard sig) (_pattern sig) ->
  find sig range
    = Ok (if Nat.leb (size sig) (length range) then 0%nat else length range).
Proof.
  intros Hs Hall. unfold size.
  destruct (Nat.leb_spec (length (_pattern sig)) (length range)) as [Hle|Hgt].
  - apply find_at; [exact Hs| |intros q Hq; lia].
    intros i y Hy.
    assert (Hi : (i < length (_pattern sig))%nat).
    { apply nth_error_Some. rewrite Hy. discriminate. }
    destruct (nth_error range (0 + i)) as [x|] eqn:Ex.
    + exists x. split; [reflexivity|]. right.
      rewrite Forall_forall in Hall. apply Hall.
      eapply nth_error_In. exact Hy.
    + apply nth_error_None in Ex. simpl in Ex. lia.
  - apply find_none; [exact Hs|].
    intros q Hm. pose proof (matches_at_fits sig range q Hs Hm). lia.
Qed.

Lemma find_all_wildcards_witness :
  _pattern (mk_signature [0; 0] 0) <> [] /\
  find (mk_signature [0; 0] 0) [5; 6; 7] = Ok 0%nat /\
  find (mk_signature [0; 0] 0) [5] = Ok 1%nat.
Proof.
  split; [discriminate|]. split.
  - apply (find_all_wildcards (mk_signature [0; 0] 0) [5; 6; 7]).
    + discriminate.
    + repeat constructor.
  - apply (find_all_wildcards (mk_signature [0; 0] 0) [5]).
    + discriminate.
    + repeat constructor.
Defined.

Lemma prefix_nth (s : list Z) : forall h,
  (forall i y, nth_error s i = Some y -> nth_error h i = Some y) <->
  firstn (length s) h = s.
Proof.
  induction s as [|y s IH]; intros h; simpl.
  - split; [reflexivity|]. intros _ i y H. destruct i; discriminate.
  - split.
    + intros H. pose proof (H 0%nat y eq_refl) as H0.
      destruct h as [|x h]; [discriminate|]. simpl in H0. inversion H0; subst x.
      f_equal. apply IH. intros i y' Hy. exact (H (S i) y' Hy).
    + intros H. destruct h as [|x h]; [discriminate|].
      injection H as Hx Hrest. subst x. intros i y' Hy.
      destruct i as [|i]; simpl in Hy |- *.
      * exact Hy.
      * apply (proj2 (IH h) Hrest). exact Hy.
Qed.

Lemma matches_at_exact (sig : memory_signature) (range : list Z) (p : nat) :
  ~ In (_wildcard sig) (_pattern sig) ->
  matches_at sig range p <-> occurs_at (_pattern sig) (map uchar range) p.
Proof.
  intros Hfresh. unfold occurs_at. rewrite <- prefix_nth. unfold matches_at.
  split; intros H i y Hy.
  - destruct (H i y Hy) as [x [Hx [Hb|Hb]]].
    + rewrite nth_error_skipn, nth_error_map, Hx. simpl. f_equal. exact Hb.
    + exfalso. apply Hfresh. rewrite <- Hb. eapply nth_error_In. exact Hy.
  - specialize (H i y Hy). rewrite nth_error_skipn, nth_error_map in H.
    destruct (nth_error range (p + i)) as [x|]; [|discriminate].
    simpl in H. inversion H. exists x. split; [reflexivity|]. left. reflexivity.
Qed.

(** X4: when the sentinel is none of the pattern bytes [find] is the exact
    search for the pattern among the bytes of the range: it returns the
    lowest position where the pattern occurs, or [last]. *)
Theorem find_exact_substring (sig : memory_signature) (range : list Z) :
  _pattern sig <> [] ->
  ~ In (_wildcard sig) (_pattern sig) ->
  exists r, find sig range = Ok r /\
    first_or_last (occurs_at (_pattern sig) (map uchar range)) (length range) r.
Proof.
  intros Hs Hfresh.
  destruct (find_nonempty_spec sig range Hs) as [r [Hr Hspec]].
  exists r. split; [exact Hr|].
  eapply first_or_last_ext; [|exact Hspec].
  intros q. apply matches_at_exact. exact Hfresh.
Qed.

Lemma find_exact_substring_witness :
  _pattern (mk_signature [19; 20] 0) <> [] /\
  ~ In (_wildcard (mk_signature [19; 20] 0)) (_pattern (mk_signature [19; 20] 0)) /\
  exists r, find (mk_signature [19; 20] 0) [19; 0; 19; 20] = Ok r /\
    first_or_last
      (occurs_at (_pattern (mk_signature [19; 20] 0)) (map uchar [19; 0; 19; 20]))
      (length [19; 0; 19; 20]) r.
Proof.
  split; [discriminate|].
  assert (H : ~ In (_wildcard (mk_signature [19; 20] 0))
                   (_pattern (mk_signature [19; 20] 0))).
  { simpl. intros [H|[H|H]]; [discriminate | discriminate | exact H]. }
  split; [exact H|].
  apply (find_exact_substring (mk_signature [19; 20] 0) [19; 0; 19; 20]).
  - discriminate.
  - exact H.
Defined.

(** ** The constructor with an explicit wildcard value *)

Lemma explicit_matches_at (pat : list Z) (wc : Z) (range : list Z) (p : nat) :
  pat <> [] ->
  matches_at (memory_signature_wildcard pat wc) range p <->
  agrees_where (fun _ b => uchar b <> uchar wc) pat range p.
Proof.
  intros Hpat. unfold agrees_where. split.
  - intros Hm. split.
    + assert (Hs : _pattern (memory_signature_wildcard pat wc) <> []).
      { simpl. destruct pat; [contradiction|discriminate]. }
      pose proof (matches_at_fits _ range p Hs Hm) as Hfit.
      simpl in Hfit. rewrite length_map in Hfit. exact Hfit.
    + intros i b x Hb Hx Hlit.
      destruct (Hm i (uchar b)) as [x' [Hx' Heq]].
      { simpl. rewrite nth_error_map, Hb. reflexivity. }
      rewrite Hx in Hx'. inversion Hx'; subst x'.
      destruct Heq as [Heq|Heq]; [exact Heq|]. simpl in Heq. contradiction.
  - intros [Hfit Hag] i y Hy. simpl in Hy. rewrite nth_error_map in Hy.
    destruct (nth_error pat i) as [b|] eqn:Hb; [|discriminate].
    simpl in Hy. inversion Hy; subst y.
    assert (Hi : (i < length pat)%nat).
    { apply nth_error_Some. rewrite Hb. discriminate. }
    destruct (nth_error range (p + i)) as [x|] eqn:Hx.
    2:{ apply nth_error_None in Hx. lia. }
    exists x. split; [reflexivity|].
    destruct (Z.eq_dec (uchar b) (uchar wc)) as [Heq|Hne].
    + right. exact Heq.
    + left. apply (Hag i b x); assumption.
Qed.

(** X5: the signature built from bytes and an explicit wildcard value keeps
    one byte for each given one, and [find] returns the lowest position
    where every given byte other than the wildcard value equals, as an
    [unsigned char], the range byte aligned with it. *)
Theorem explicit_wildcard_find (pat : list Z) (wc : Z) (range : list Z) :
  pat <> [] ->
  size (memory_signature_wildcard pat wc) = length pat /\
  exists r, find (memory_signature_wildcard pat wc) range = Ok r /\
    first_or_last (agrees_where (fun _ b => uchar b <> uchar wc) pat range)
                  (length range) r.
Proof.
  intros Hpat. split; [unfold size; simpl; apply length_map|].
  assert (Hs : _pattern (memory_signature_wildcard pat wc) <> []).
  { simpl. destruct pat; [contradiction|discriminate]. }
  destruct (find_nonempty_spec _ range Hs) as [r [Hr Hspec]].
  exists r. split; [exact Hr|].
  eapply first_or_last_ext; [|exact Hspec].
  intros q. apply explicit_matches_at. exact Hpat.
Qed.

Lemma explicit_wildcard_find_witness :
  [17; 18; 19; 20] <> [] /\
  size (memory_signature_wildcard [17; 18; 19; 20] 18) = 4%nat /\
  exists r, find (memory_signature_wildcard [17; 18; 19; 20] 18) [1; 17; 99; 19; 20] = Ok r /\
    first_or_last
      (agrees_where (fun _ b => uchar b <> uchar 18) [17; 18; 19; 20] [1; 17; 99; 19; 20])
      (length [1; 17; 99; 19; 20]) r.
Proof.
  split; [discriminate|].
  apply (explicit_wildcard_find [17; 18; 19; 20] 18 [1; 17; 99; 19; 20]).
  discriminate.
Defined.

(** ** The masked constructors *)

Lemma masked_to_wildcard_nth (u w : Z) (pat : list Z) : forall mask p,
  masked_to_wildcard pat mask u w = Ok p ->
  length p = length pat /\
  forall i b m, nth_error pat i = Some b -> nth_error mask i = Some m ->
    nth_error p i = Some (if m =? u then w else uchar b).
Proof.
  induction pat as [|b0 pat IH]; intros mask p H; simpl in H.
  - inversion H; subst p. split; [reflexivity|]. intros i b m Hb. destruct i; discriminate.
  - destruct mask as [|m0 mask]; [discriminate|].
    destruct (masked_to_wildcard pat mask u w) as [rest|e|un] eqn:E; simpl in H;
      try discriminate.
    inversion H; subst p. destruct (IH mask rest E) as [Hlen Hnth].
    split; [simpl; f_equal; exact Hlen|].
    intros i b m Hb Hm. destruct i as [|i]; simpl in *.
    + inversion Hb; inversion Hm; subst. destruct (m =? u); reflexivity.
    + apply Hnth; assumption.
Qed.

Lemma masked_to_wildcard_ok (u w : Z) (pat : list Z) : forall mask,
  length pat = length mask -> exists p, masked_to_wildcard pat mask u w = Ok p.
Proof.
  induction pat as [|b pat IH]; intros mask Hlen; simpl.
  - exists []. reflexivity.
  - destruct mask as [|m mask]; [discriminate|]. simpl in Hlen.
    destruct (IH mask ltac:(lia)) as [p Hp]. rewrite Hp. simpl. eexists. reflexivity.
Qed.

Lemma find_wildcard_masked_inv (pat mask : list Z) (unk w : Z) :
  detail.find_wildcard_masked pat mask unk = Ok w ->
  exists bits,
    detail.mark (detail.masked_cmp (uchar unk)) mask bitset_empty pat = Ok bits /\
    detail.scan bits 0 256 = Some w.
Proof.
  unfold detail.find_wildcard_masked, detail.find_wildcard.
  destruct (detail.mark (detail.masked_cmp (uchar unk)) mask bitset_empty pat)
    as [bits|e|u]; cbv beta iota delta [bind]; try discriminate.
  destruct (detail.scan bits 0 256) as [i|] eqn:Es; [|discriminate].
  intros H. injection H as Hw. subst w. exists bits. split; [reflexivity|].
  pose proof (scan_some _ _ _ _ Es) as [Hr _].
  rewrite Es, uchar_small by lia. reflexivity.
Qed.

Lemma memory_signature_masked_inv (pat mask : list Z) (unk : Z)
  (sig : memory_signature) :
  memory_signature_masked pat mask unk = Ok sig ->
  detail.find_wildcard_masked pat mask unk = Ok (_wildcard sig) /\
  length pat = length mask /\
  masked_to_wildcard pat mask (uchar unk) (_wildcard sig) = Ok (_pattern sig).
Proof.
  unfold memory_signature_masked.
  destruct (detail.find_wildcard_masked pat mask unk) as [w|e|u];
    cbv beta iota delta [bind]; try discriminate.
  destruct (Nat.eqb_spec (length pat) (length mask)) as [Hlen|Hlen];
    cbn [negb]; [|discriminate].
  destruct (masked_to_wildcard pat mask (uchar unk) w) as [p|e|u] eqn:E;
    try discriminate.
  intros H. inversion H; subst sig. cbn [_wildcard _pattern].
  split; [reflexivity|]. split; [exact Hlen|exact E].
Qed.

(** A bit that is set after marking was set before or was set by a literal
    position holding its value. *)
Lemma mark_masked_set_by_literal (u v : Z) (pat : list Z) : forall mask bits bits',
  detail.mark (detail.masked_cmp u) mask bits pat = Ok bits' ->
  bitset_test bits' v = true ->
  bitset_test bits v = true \/
  exists i b m, nth_error pat i = Some b /\ uchar b = v /\
                nth_error mask i = Some m /\ m <> u.
Proof.
  induction pat as [|b0 pat IH]; intros mask bits bits' H Hv; simpl in H.
  - inversion H; subst. left. exact Hv.
  - destruct mask as [|m0 mask]; [discriminate|]. simpl in H.
    destruct (IH _ _ _ H Hv) as [Hb|[i [b [m [H1 [H2 [H3 H4]]]]]]].
    + rewrite bitset_assign_test in Hb by apply uchar_range.
      destruct (Z.eqb_spec (uchar b0) v) as [Heq|Hne]; [|left; exact Hb].
      right. exists 0%nat, b0, m0. simpl.
      split; [reflexivity|]. split; [exact Heq|]. split; [reflexivity|].
      apply negb_true_iff in Hb. apply Z.eqb_neq. exact Hb.
    + right. exists (S i), b, m. simpl. repeat split; assumption.
Qed.

(** A bit that was set and is clear after marking was cleared by a wildcard
    position holding its value. *)
Lemma mark_masked_cleared_by_wildcard (u v : Z) (pat : list Z) :
  forall mask bits bits',
  detail.mark (detail.masked_cmp u) mask bits pat = Ok bits' ->
  bitset_test bits v = true -> bitset_test bits' v = false ->
  exists j b m, nth_error pat j = Some b /\ uchar b = v /\
                nth_error mask j = Some m /\ m = u.
Proof.
  induction pat as [|b0 pat IH]; intros mask bits bits' H Hv Hv'; simpl in H.
  - inversion H; subst. congruence.
  - destruct mask as [|m0 mask]; [discriminate|]. simpl in H.
    destruct (bitset_test (bitset_assign bits (uchar b0) (negb (m0 =? u))) v) eqn:E.
    + destruct (IH _ _ _ H E Hv') as [j [b [m [H1 [H2 [H3 H4]]]]]].
      exists (S j), b, m. simpl. repeat split; assumption.
    + rewrite bitset_assign_test in E by apply uchar_range.
      destruct (Z.eqb_spec (uchar b0) v) as [Heq|Hne]; [|congruence].
      exists 0%nat, b0, m0. simpl.
      split; [reflexivity|]. split; [exact Heq|]. split; [reflexivity|].
      apply negb_false_iff in E. apply Z.eqb_eq. exact E.
Qed.

(** When the value of a literal position ends up unmarked, a wildcard
    position behind it holds the same value. *)
Lemma mark_masked_literal_then_cleared (u : Z) (pat : list Z) :
  forall mask bits bits' i b m,
  detail.mark (detail.masked_cmp u) mask bits pat = Ok bits' ->
  nth_error pat i = Some b -> nth_error mask i = Some m -> m <> u ->
  bitset_test bits' (uchar b) = false ->
  exists j b' m', (i < j)%nat /\ nth_error pat j = Some b' /\ uchar b' = uchar b /\
                  nth_error mask j = Some m' /\ m' = u.
Proof.
  induction pat as [|b0 pat IH]; intros mask bits bits' i b m H Hb Hm Hlit Hclr;
    simpl in H.
  - destruct i; discriminate.
  - destruct mask as [|m0 mask]; [discriminate|]. simpl in H.
    destruct i as [|i]; simpl in Hb, Hm.
    + inversion Hb; inversion Hm; subst b0 m0.
      assert (Hset : bitset_test (bitset_assign bits (uchar b) (negb (m =? u)))
                       (uchar b) = true).
      { rewrite bitset_assign_test by apply uchar_range. rewrite Z.eqb_refl.
        apply negb_true_iff. apply Z.eqb_neq. exact Hlit. }
      destruct (mark_masked_cleared_by_wildcard _ _ _ _ _ _ H Hset Hclr)
        as [j [b' [m' [H1 [H2 [H3 H4]]]]]].
      exists (S j), b', m'. simpl. repeat split; try assumption. lia.
    + destruct (IH _ _ _ _ _ _ H Hb Hm Hlit Hclr) as [j [b' [m' [H0 [H1 [H2 [H3 H4]]]]]]].
      exists (S j), b', m'. simpl. repeat split; try assumption. lia.
Qed.

Lemma masked_pattern_shape_aux (pat mask : list Z) (unk : Z)
  (sig : memory_signature) :
  memory_signature_masked pat mask unk = Ok sig ->
  length mask = length pat /\ length (_pattern sig) = length pat /\
  forall i b m, nth_error pat i = Some b -> nth_error mask i = Some m ->
    nth_error (_pattern sig) i
      = Some (if m =? uchar unk then _wildcard sig else uchar b).
Proof.
  intros H. apply memory_signature_masked_inv in H.
  destruct H as [_ [Hlen Hp]].
  apply masked_to_wildcard_nth in Hp. destruct Hp as [Hsz Hnth].
  split; [symmetry; exact Hlen|]. split; [exact Hsz|exact Hnth].
Qed.

(** X6: a signature built by a masked constructor has one byte for each
    pattern byte, the mask has that length too, the sentinel is a byte
    value, and position [i] holds the sentinel when the mask entry is the
    unknown marker and the pattern byte, as an [unsigned char], when it is
    not. *)
Theorem masked_pattern_content (pat mask : list Z) (unk : Z)
  (sig : memory_signature) :
  memory_signature_masked pat mask unk = Ok sig ->
  length mask = length pat /\ size sig = length pat /\
  0 <= _wildcard sig < 256 /\
  forall i b m, nth_error pat i = Some b -> nth_error mask i = Some m ->
    nth_error (_pattern sig) i
      = Some (if m =? uchar unk then _wildcard sig else uchar b).
Proof.
  intros H. apply memory_signature_masked_inv in H.
  destruct H as [Hw [Hlen Hp]].
  apply masked_to_wildcard_nth in Hp. destruct Hp as [Hsz Hnth].
  split; [symmetry; exact Hlen|]. split; [exact Hsz|]. split; [|exact Hnth].
  apply find_wildcard_masked_inv in Hw. destruct Hw as [bits [_ Hs]].
  apply scan_some in Hs. lia.
Qed.

Lemma masked_pattern_content_witness :
  memory_signature_masked [17; 18; 275] [1; 0; 1] 0 = Ok (mk_signature [17; 0; 19] 0) /\
  length [1; 0; 1] = length [17; 18; 275] /\
  size (mk_signature [17; 0; 19] 0) = length [17; 18; 275] /\
  0 <= _wildcard (mk_signature [17; 0; 19] 0) < 256 /\
  forall i b m, nth_error [17; 18; 275] i = Some b -> nth_error [1; 0; 1] i = Some m ->
    nth_error (_pattern (mk_signature [17; 0; 19] 0)) i
      = Some (if m =? uchar 0 then _wildcard (mk_signature [17; 0; 19] 0) else uchar b).
Proof.
  split; [reflexivity|].
  apply (masked_pattern_content [17; 18; 275] [1; 0; 1] 0 (mk_signature [17; 0; 19] 0)).
  reflexivity.
Defined.

(** X7: the sentinel the masked resolver returns is a byte value, and every
    value below it is the value of a literal position of the pattern. *)
Theorem masked_sentinel_minimal (pat mask : list Z) (unk w : Z) :
  detail.find_wildcard_masked pat mask unk = Ok w ->
  0 <= w < 256 /\
  forall v, 0 <= v < w ->
    exists i b, nth_error pat i = Some b /\ uchar b = v /\ literal_at mask unk i.
Proof.
  intros H. apply find_wildcard_masked_inv in H. destruct H as [bits [Hm Hs]].
  apply scan_some in Hs. destruct Hs as [Hr [_ Hbelow]].
  split; [lia|]. intros v Hv.
  destruct (mark_masked_set_by_literal _ v _ _ _ _ Hm (Hbelow v Hv))
    as [H0|[i [b [m [H1 [H2 [H3 H4]]]]]]].
  - unfold bitset_test, bitset_empty in H0. rewrite Z.testbit_0_l in H0. discriminate.
  - exists i, b. split; [exact H1|]. split; [exact H2|]. exists m. split; assumption.
Qed.

Lemma masked_sentinel_minimal_witness :
  detail.find_wildcard_masked [1; 0; 2; 7] [1; 1; 0; 1] 0 = Ok 2 /\
  0 <= 2 < 256 /\
  forall v, 0 <= v < 2 ->
    exists i b, nth_error [1; 0; 2; 7] i = Some b /\ uchar b = v /\
                literal_at [1; 1; 0; 1] 0 i.
Proof.
  split; [reflexivity|].
  apply (masked_sentinel_minimal [1; 0; 2; 7] [1; 1; 0; 1] 0 2). reflexivity.
Defined.

(** X8: the sentinel equals the value of a literal position only when a
    wildcard position behind that literal holds the same value. *)
Theorem masked_sentinel_collision_needs_repeat (pat mask : list Z) (unk w : Z) :
  detail.find_wildcard_masked pat mask unk = Ok w ->
  forall i b, nth_error pat i = Some b -> literal_at mask unk i -> uchar b = w ->
    exists j b', (i < j)%nat /\ nth_error pat j = Some b' /\ uchar b' = w /\
                 wildcard_at mask unk j.
Proof.
  intros H i b Hb [m [Hm Hlit]] Hbw.
  apply find_wildcard_masked_inv in H. destruct H as [bits [Hmk Hs]].
  apply scan_some in Hs. destruct Hs as [_ [Hclr _]].
  rewrite <- Hbw in Hclr.
  destruct (mark_masked_literal_then_cleared _ _ _ _ _ _ _ _ Hmk Hb Hm Hlit Hclr)
    as [j [b' [m' [H0 [H1 [H2 [H3 H4]]]]]]].
  exists j, b'. split; [exact H0|]. split; [exact H1|].
  split; [congruence|]. exists m'. split; assumption.
Qed.

Lemma masked_sentinel_collision_needs_repeat_witness :
  detail.find_wildcard_masked [0; 5; 0] [1; 1; 0] 0 = Ok 0 /\
  exists j b', (0 < j)%nat /\ nth_error [0; 5; 0] j = Some b' /\ uchar b' = 0 /\
               wildcard_at [1; 1; 0] 0 j.
Proof.
  split; [reflexivity|].
  apply (masked_sentinel_collision_needs_repeat [0; 5; 0] [1; 1; 0] 0 0 eq_refl 0%nat 0).
  - reflexivity.
  - exists 1. split; [reflexivity|]. vm_compute. discriminate.
  - reflexivity.
Defined.

(** X9: when no value stands at a literal position and again at a wildcard
    position behind it, the sentinel of the signature a masked constructor
    builds is the value of no literal position. *)
Theorem masked_sentinel_fresh_without_repeat (pat mask : list Z) (unk : Z)
  (sig : memory_signature) :
  (forall i j b b', (i < j)%nat ->
     nth_error pat i = Some b -> nth_error pat j = Some b' ->
     literal_at mask unk i -> wildcard_at mask unk j -> uchar b <> uchar b') ->
  memory_signature_masked pat mask unk = Ok sig ->
  masked_sentinel_fresh pat mask unk sig.
Proof.
  intros Hrep H. apply memory_signature_masked_inv in H. destruct H as [Hw _].
  intros i b Hb [m [Hm Hlit]] Hbw.
  apply find_wildcard_masked_inv in Hw. destruct Hw as [bits [Hmk Hs]].
  apply scan_some in Hs. destruct Hs as [_ [Hclr _]].
  rewrite <- Hbw in Hclr.
  destruct (mark_masked_literal_then_cleared _ _ _ _ _ _ _ _ Hmk Hb Hm Hlit Hclr)
    as [j [b' [m' [H0 [H1 [H2 [H3 H4]]]]]]].
  apply (Hrep i j b b' H0 Hb H1).
  - exists m. split; assumption.
  - exists m'. split; assumption.
  - symmetry. exact H2.
Qed.

Lemma masked_sentinel_fresh_without_repeat_witness :
  memory_signature_masked [17; 18; 19] [1; 0; 1] 0 = Ok (mk_signature [17; 0; 19] 0) /\
  masked_sentinel_fresh [17; 18; 19] [1; 0; 1] 0 (mk_signature [17; 0; 19] 0).
Proof.
  split; [reflexivity|].
  apply (masked_sentinel_fresh_without_repeat [17; 18; 19] [1; 0; 1] 0).
  - intros i j b b' Hij Hb Hb' _ [m [Hm Hu]].
    destruct j as [|[|[|[|j]]]]; simpl in Hm; try discriminate;
      injection Hm as Hm; rewrite <- Hm in Hu; vm_compute in Hu;
      try discriminate.
    destruct i as [|i]; [|lia].
    simpl in Hb, Hb'. inversion Hb; inversion Hb'; subst.
    vm_compute. discriminate.
  - reflexivity.
Defined.

Lemma all_bytes_NoDup : NoDup all_bytes.
Proof.
  unfold all_bytes. apply NoDup_map_NoDup_ForallPairs.
  - intros x y _ _ H. apply Nat2Z.inj. exact H.
  - apply seq_NoDup.
Qed.

Lemma all_bytes_In (v : Z) : In v all_bytes -> 0 <= v < 256.
Proof.
  unfold all_bytes. intros H. apply in_map_iff in H.
  destruct H as [n [<- Hn]]. apply in_seq in Hn. lia.
Qed.

(** Covering every byte value takes at least 256 positions. *)
Lemma literals_cover_all_length (pat mask : list Z) (unk : Z) :
  literals_cover_all pat mask unk -> (256 <= length pat)%nat.
Proof.
  intros Hcov.
  assert (Hincl : incl all_bytes (map uchar pat)).
  { intros v Hv. apply all_bytes_In in Hv.
    destruct (Hcov v Hv) as [i [b [Hb [Hbv _]]]].
    rewrite <- Hbv. apply in_map. eapply nth_error_In. exact Hb. }
  pose proof (NoDup_incl_length all_bytes_NoDup Hincl) as H.
  unfold all_bytes in H at 1. rewrite !length_map, length_seq in H. exact H.
Qed.

Lemma find_wildcard_masked_throw (pat mask : list Z) (unk : Z) :
  detail.find_wildcard_masked pat mask unk = Throw range_error ->
  literals_cover_all pat mask unk.
Proof.
  unfold detail.find_wildcard_masked, detail.find_wildcard.
  destruct (detail.mark (detail.masked_cmp (uchar unk)) mask bitset_empty pat)
    as [bits|e|u] eqn:Hm; cbv beta iota delta [bind].
  - destruct (detail.scan bits 0 256) as [i|] eqn:Es; [discriminate|]. intros _.
    intros v Hv.
    assert (Hset : bitset_test bits v = true).
    { apply (proj1 (scan_none bits 256 0) Es). lia. }
    destruct (mark_masked_set_by_literal _ v _ _ _ _ Hm Hset)
      as [H0|[i [b [m [H1 [H2 [H3 H4]]]]]]].
    + unfold bitset_test, bitset_empty in H0. rewrite Z.testbit_0_l in H0.
      discriminate.
    + exists i, b. split; [exact H1|]. split; [exact H2|].
      exists m. split; assumption.
  - intros _. exfalso. revert Hm. generalize bitset_empty. revert mask.
    induction pat as [|b pat IH]; intros mask bits Hm; simpl in Hm; [discriminate|].
    destruct mask as [|m mask]; [discriminate|]. simpl in Hm. exact (IH _ _ Hm).
  - discriminate.
Qed.

(** X10: a masked constructor throws [range_error] only when the literal
    positions of the pattern hold every byte value, which takes at least
    256 bytes. *)
Theorem range_error_needs_full_cover (pat mask : list Z) (unk : Z) :
  memory_signature_masked pat mask unk = Throw range_error ->
  literals_cover_all pat mask unk /\ (256 <= length pat)%nat.
Proof.
  intros H.
  assert (Hcov : literals_cover_all pat mask unk).
  { apply find_wildcard_masked_throw. revert H. unfold memory_signature_masked.
    destruct (detail.find_wildcard_masked pat mask unk) as [w|e|u];
      cbv beta iota delta [bind];
      [|intros H; injection H as H; subst e; reflexivity|discriminate].
    destruct (Nat.eqb_spec (length pat) (length mask)) as [Hlen|Hlen];
      cbn [negb]; [|discriminate].
    destruct (masked_to_wildcard_ok (uchar unk) w pat mask Hlen) as [p Hp].
    rewrite Hp. discriminate. }
  split; [exact Hcov|]. eapply literals_cover_all_length. exact Hcov.
Qed.

Lemma range_error_needs_full_cover_witness :
  memory_signature_masked all_bytes (repeat 1 256) 0 = Throw range_error /\
  literals_cover_all all_bytes (repeat 1 256) 0 /\ (256 <= length all_bytes)%nat.
Proof.
  assert (H : memory_signature_masked all_bytes (repeat 1 256) 0 = Throw range_error)
    by (vm_compute; reflexivity).
  split; [exact H|].
  apply (range_error_needs_full_cover all_bytes (repeat 1 256) 0). exact H.
Defined.

(** X11: with a mask as long as the pattern and fewer than 256 bytes a
    masked constructor always builds a signature. *)
Theorem masked_short_pattern_constructs (pat mask : list Z) (unk : Z) :
  length pat = length mask -> (length pat < 256)%nat ->
  exists sig, memory_signature_masked pat mask unk = Ok sig.
Proof.
  intros Hlen Hshort. unfold memory_signature_masked.
  destruct (detail.find_wildcard_masked pat mask unk) as [w|e|u] eqn:Hw;
    cbv beta iota delta [bind].
  - rewrite Hlen, Nat.eqb_refl. cbn [negb].
    destruct (masked_to_wildcard_ok (uchar unk) w pat mask Hlen) as [p Hp].
    rewrite Hp. eexists. reflexivity.
  - exfalso. destruct e.
    + apply find_wildcard_masked_throw in Hw.
      apply literals_cover_all_length in Hw. lia.
    + revert Hw. unfold detail.find_wildcard_masked, detail.find_wildcard.
      destruct (mark_masked_ok (uchar unk) pat mask bitset_empty) as [bits Hm]; [lia|].
      rewrite Hm. cbv beta iota delta [bind].
      destruct (detail.scan bits 0 256); discriminate.
  - exfalso. revert Hw. unfold detail.find_wildcard_masked, detail.find_wildcard.
    destruct (mark_masked_ok (uchar unk) pat mask bitset_empty) as [bits Hm]; [lia|].
    rewrite Hm. cbv beta iota delta [bind].
    destruct (detail.scan bits 0 256); discriminate.
Qed.

Lemma masked_short_pattern_constructs_witness :
  length [17; 18; 19; 20] = length (chars "x?xx") /\
  (length [17; 18; 19; 20]%Z < 256)%nat /\
  exists sig, memory_signature_masked [17; 18; 19; 20] (chars "x?xx") QMARK = Ok sig.
Proof.
  split; [reflexivity|]. split; [simpl; lia|].
  apply (masked_short_pattern_constructs [17; 18; 19; 20] (chars "x?xx") QMARK).
  - reflexivity.
  - simpl. lia.
Defined.

Lemma masked_matches_agree (pat mask : list Z) (unk : Z) (sig : memory_signature)
  (range : list Z) (p : nat) :
  memory_signature_masked pat mask unk = Ok sig ->
  agrees_where (fun i _ => literal_at mask unk i) pat range p ->
  matches_at sig range p.
Proof.
  intros H [Hfit Hag]. apply masked_pattern_shape_aux in H.
  destruct H as [Hlen [Hsz Hnth]]. intros i y Hy.
  assert (Hi : (i < length pat)%nat).
  { rewrite <- Hsz. apply nth_error_Some. rewrite Hy. discriminate. }
  destruct (nth_error pat i) as [b|] eqn:Hb.
  2:{ apply nth_error_None in Hb. lia. }
  destruct (nth_error mask i) as [m|] eqn:Hm.
  2:{ apply nth_error_None in Hm. lia. }
  destruct (nth_error range (p + i)) as [x|] eqn:Hx.
  2:{ apply nth_error_None in Hx. lia. }
  rewrite (Hnth i b m Hb Hm) in Hy.
  exists x. split; [reflexivity|].
  destruct (Z.eqb_spec m (uchar unk)) as [Heq|Hne]; injection Hy as Hy; subst y.
  - right. reflexivity.
  - left. apply (Hag i b x Hb Hx). exists m. split; [exact Hm|exact Hne].
Qed.

Lemma masked_matches_agree_inv (pat mask : list Z) (unk : Z)
  (sig : memory_signature) (range : list Z) (p : nat) :
  memory_signature_masked pat mask unk = Ok sig -> pat <> [] ->
  masked_sentinel_fresh pat mask unk sig ->
  matches_at sig range p ->
  agrees_where (fun i _ => literal_at mask unk i) pat range p.
Proof.
  intros H Hpat Hfresh Hmatch. apply masked_pattern_shape_aux in H.
  destruct H as [Hlen [Hsz Hnth]]. split.
  - rewrite <- Hsz. apply matches_at_fits; [|exact Hmatch].
    intros E. rewrite E in Hsz. destruct pat; [contradiction|discriminate].
  - intros i b x Hb Hx [m [Hm Hlit]].
    pose proof (Hnth i b m Hb Hm) as Hy.
    destruct (Z.eqb_spec m (uchar unk)) as [Heq|_]; [contradiction|].
    destruct (Hmatch i (uchar b) Hy) as [x' [Hx' [Hbe|Hbe]]].
    + congruence.
    + exfalso. apply (Hfresh i b Hb); [|exact Hbe].
      exists m. split; assumption.
Qed.

(** X12: when the sentinel of a masked signature is the value of no literal
    position, [find] returns the lowest position at which the pattern fits
    and every literal position equals the range byte aligned with it,
    whatever the bytes at the wildcard positions; [last] when there is
    none. *)
Theorem masked_find_on_literals (pat mask : list Z) (unk : Z)
  (sig : memory_signature) (range : list Z) :
  memory_signature_masked pat mask unk = Ok sig -> pat <> [] ->
  masked_sentinel_fresh pat mask unk sig ->
  exists r, find sig range = Ok r /\
    first_or_last (agrees_where (fun i _ => literal_at mask unk i) pat range)
                  (length range) r.
Proof.
  intros H Hpat Hfresh.
  assert (Hs : _pattern sig <> []).
  { pose proof (masked_pattern_shape_aux _ _ _ _ H) as [_ [Hsz _]].
    intros E. rewrite E in Hsz. destruct pat; [contradiction|discriminate]. }
  destruct (find_nonempty_spec sig range Hs) as [r [Hr Hspec]].
  exists r. split; [exact Hr|].
  eapply first_or_last_ext; [|exact Hspec].
  intros q. split.
  - apply masked_matches_agree_inv; assumption.
  - apply masked_matches_agree; assumption.
Qed.

Lemma masked_find_on_literals_witness :
  memory_signature_masked [17; 18; 19; 20] (chars "x?xx") QMARK
    = Ok (mk_signature [17; 0; 19; 20] 0) /\
  exists r, find (mk_signature [17; 0; 19; 20] 0) [17; 255; 153; 20; 17; 0; 19; 20] = Ok r /\
    first_or_last
      (agrees_where (fun i _ => literal_at (chars "x?xx") QMARK i) [17; 18; 19; 20]
                    [17; 255; 153; 20; 17; 0; 19; 20])
      (length [17; 255; 153; 20; 17; 0; 19; 20]) r.
Proof.
  split; [reflexivity|].
  apply (masked_find_on_literals [17; 18; 19; 20] (chars "x?xx") QMARK).
  - reflexivity.
  - discriminate.
  - intros i b Hb [m [Hm Hlit]] Hbw. simpl in Hbw.
    destruct i as [|[|[|[|[|i]]]]]; simpl in Hb; try discriminate;
      injection Hb as Hb; subst b; vm_compute in Hbw; try discriminate.
Defined.

(** X13: whether or not the sentinel collides with a literal, a range that
    holds the literal bytes of a masked pattern at position [p] is found:
    [find] returns a position not behind [p] with the whole pattern in
    front of [last]. *)
Theorem masked_find_finds_agreeing_range (pat mask : list Z) (unk : Z)
  (sig : memory_signature) (range : list Z) (p : nat) :
  memory_signature_masked pat mask unk = Ok sig -> pat <> [] ->
  agrees_where (fun i _ => literal_at mask unk i) pat range p ->
  exists r, find sig range = Ok r /\ (r <= p)%nat /\
            (r + length pat <= length range)%nat.
Proof.
  intros H Hpat Hag.
  pose proof (masked_pattern_shape_aux _ _ _ _ H) as [_ [Hsz _]].
  assert (Hs : _pattern sig <> []).
  { intros E. rewrite E in Hsz. destruct pat; [contradiction|discriminate]. }
  pose proof (masked_matches_agree _ _ _ _ _ _ H Hag) as Hm.
  destruct (find_nonempty_spec sig range Hs) as [r [Hr [[Hlt [Hmr Hmin]]|[_ Hno]]]].
  - exists r. split; [exact Hr|]. split.
    + destruct (Nat.le_gt_cases r p) as [Hle|Hgt]; [exact Hle|].
      exfalso. exact (Hmin p Hgt Hm).
    + rewrite <- Hsz. apply matches_at_fits; assumption.
  - exfalso. exact (Hno p Hm).
Qed.

Lemma masked_find_finds_agreeing_range_witness :
  memory_signature_masked [0; 0; 19] [1; 0; 1] 0 = Ok (mk_signature [0; 0; 19] 0) /\
  exists r, find (mk_signature [0; 0; 19] 0) [5; 0; 77; 19] = Ok r /\ (r <= 1)%nat /\
            (r + length [0; 0; 19]%Z <= length [5; 0; 77; 19]%Z)%nat.
Proof.
  split; [reflexivity|].
  apply (masked_find_finds_agreeing_range [0; 0; 19] [1; 0; 1] 0
           (mk_signature [0; 0; 19] 0) [5; 0; 77; 19] 1).
  - reflexivity.
  - discriminate.
  - split; [simpl; lia|].
    intros i b x Hb Hx [m [Hm Hlit]].
    destruct i as [|[|[|[|i]]]]; simpl in Hb, Hx, Hm; try discriminate;
      injection Hb as Hb; injection Hx as Hx; injection Hm as Hm; subst b x m;
      try reflexivity.
    exfalso. apply Hlit. reflexivity.
Defined.

(** ** The hybrid constructor on tokens of any shape *)

(** X14: when the conversion of every token ends inside the two-character
    buffer, the hybrid constructor builds the signature with sentinel 0
    whose bytes are, token by token, the sentinel when the token has a
    ['?'] anywhere, then the digit value of the first of its other
    characters when it has any. *)
Theorem hybrid_parses_any_token (s : string) :
  forallb token_reads_inside (tokens_of s) = true ->
  memory_signature_hybrid s
    = Ok (mk_signature (concat (map (token_bytes 0) (tokens_of s))) 0).
Proof.
  intros Hin. rewrite memory_signature_hybrid_outcome, Hin. reflexivity.
Qed.

Lemma hybrid_parses_any_token_witness :
  forallb token_reads_inside (tokens_of "1? ?Z? ??  f ZZ") = true /\
  memory_signature_hybrid "1? ?Z? ??  f ZZ"
    = Ok (mk_signature (concat (map (token_bytes 0) (tokens_of "1? ?Z? ??  f ZZ"))) 0) /\
  concat (map (token_bytes 0) (tokens_of "1? ?Z? ??  f ZZ")) = [0; 1; 0; 0; 0; 15; 0].
Proof.
  split; [reflexivity|]. split; [|reflexivity].
  apply (hybrid_parses_any_token "1? ?Z? ??  f ZZ"). reflexivity.
Defined.

Lemma token_reads_inside_fits (t : list Z) :
  token_reads_inside t = true -> token_fits t = true.
Proof.
  unfold token_reads_inside, token_fits.
  destruct (literal_chars t) as [|a [|b [|c r]]]; simpl; try reflexivity.
  discriminate.
Qed.

(** X15: when some token has three or more characters other than ['?'],
    the hybrid constructor accesses the two-character buffer [tokens]
    behind its end: it writes [tokens[2]], unless the conversion of an
    earlier token has already read behind the buffer. *)
Theorem hybrid_long_token_overruns (s : string) :
  forallb token_fits (tokens_of s) = false ->
  memory_signature_hybrid s = Undef tokens_overrun.
Proof.
  intros Hfit. rewrite memory_signature_hybrid_outcome.
  destruct (forallb token_reads_inside (tokens_of s)) eqn:E; [|reflexivity].
  exfalso. rewrite forallb_forall in E.
  assert (H : forallb token_fits (tokens_of s) = true).
  { apply forallb_forall. intros t Ht. apply token_reads_inside_fits.
    apply E. exact Ht. }
  congruence.
Qed.

Lemma hybrid_long_token_overruns_witness :
  forallb token_fits (tokens_of "1 0x1f ??") = false /\
  memory_signature_hybrid "1 0x1f ??" = Undef tokens_overrun.
Proof.
  split; [reflexivity|].
  apply (hybrid_long_token_overruns "1 0x1f ??"). reflexivity.
Defined.

(** X22: when the conversion of some token does not end inside the
    two-character buffer, as for every token of two hexadecimal digits,
    the hybrid constructor accesses [tokens] behind its end. *)
Theorem hybrid_reads_behind_tokens (s : string) :
  forallb token_reads_inside (tokens_of s) = false ->
  memory_signature_hybrid s = Undef tokens_overrun.
Proof.
  intros Hin. rewrite memory_signature_hybrid_outcome, Hin. reflexivity.
Qed.

Lemma hybrid_reads_behind_tokens_witness :
  forallb token_reads_inside (tokens_of "? 7f") = false /\
  memory_signature_hybrid "? 7f" = Undef tokens_overrun.
Proof.
  split; [reflexivity|].
  apply (hybrid_reads_behind_tokens "? 7f"). reflexivity.
Defined.

Lemma split_tokens_blank (l : list Z) :
  forallb (fun c => c =? SPACE) l = true -> split_tokens [] l = [].
Proof.
  induction l as [|c l IH]; intros H; simpl in *; [reflexivity|].
  apply andb_prop in H. destruct H as [Hc Hl]. rewrite Hc. apply IH. exact Hl.
Qed.

(** X16: a string of spaces, the empty string included, builds the empty
    signature, which [find] reports as not found in every range. *)
Theorem hybrid_blank_is_empty (s : string) :
  forallb (fun c => c =? SPACE) (chars s) = true ->
  memory_signature_hybrid s = Ok memory_signature_empty /\
  forall range, find memory_signature_empty range = Ok (length range).
Proof.
  intros H. split; [|intros range; reflexivity].
  rewrite memory_signature_hybrid_tokens.
  - unfold tokens_of. rewrite split_tokens_blank by exact H. reflexivity.
  - unfold tokens_of. rewrite split_tokens_blank by exact H. constructor.
Qed.

Lemma hybrid_blank_is_empty_witness :
  forallb (fun c => c =? SPACE) (chars "   ") = true /\
  memory_signature_hybrid "   " = Ok memory_signature_empty /\
  forall range, find memory_signature_empty range = Ok (length range).
Proof.
  split; [reflexivity|].
  apply (hybrid_blank_is_empty "   "). reflexivity.
Defined.

Lemma hex_value_range (t : list Z) :
  hex_digit_token t = true -> 0 <= hex_value t < 256.
Proof.
  intros H. apply hex_digit_token_plain in H. destruct H as [_ H].
  rewrite H. pose proof (digit_or_zero_range (hd 0 t)). lia.
Qed.

Lemma masked_to_wildcard_tokens (ts : list (list Z)) :
  Forall (fun t => token_wf t = true) ts ->
  masked_to_wildcard (map token_value ts) (map token_mask ts) (uchar 0) 0
    = Ok (map token_value ts).
Proof.
  induction ts as [|t ts IH]; intros Hwf; simpl; [reflexivity|].
  inversion Hwf as [|? ? Ht Hts]; subst. rewrite (IH Hts). simpl.
  f_equal. f_equal. unfold token_mask, token_value.
  destruct (wildcard_token t) eqn:E; [reflexivity|].
  change (1 =? uchar 0) with false. cbn [negb].
  unfold token_wf in Ht. rewrite E in Ht. simpl in Ht.
  apply uchar_small. apply hex_value_range. exact Ht.
Qed.

Lemma find_wildcard_masked_tokens (ts : list (list Z)) :
  Forall (fun t => token_wf t = true) ts ->
  Forall (fun t => wildcard_token t || negb (hex_value t =? 0) = true) ts ->
  detail.find_wildcard_masked (map token_value ts) (map token_mask ts) 0 = Ok 0.
Proof.
  intros Hwf Hnz. unfold detail.find_wildcard_masked, detail.find_wildcard.
  destruct (mark_masked_ok (uchar 0) (map token_value ts) (map token_mask ts)
              bitset_empty) as [bits Hm].
  { rewrite !length_map. lia. }
  rewrite Hm. cbv beta iota delta [bind].
  assert (H0 : bitset_test bits 0 = false).
  { destruct (bitset_test bits 0) eqn:E; [|reflexivity]. exfalso.
    destruct (mark_masked_set_by_literal _ 0 _ _ _ _ Hm E)
      as [H|[i [b [m [Hb [Hb0 [Hmi Hlit]]]]]]].
    - unfold bitset_test, bitset_empty in H. rewrite Z.testbit_0_l in H.
      discriminate.
    - rewrite nth_error_map in Hb, Hmi.
      destruct (nth_error ts i) as [t|] eqn:Et; [|discriminate].
      simpl in Hb, Hmi. injection Hb as Hb. injection Hmi as Hmi. subst b m.
      apply nth_error_In in Et.
      rewrite Forall_forall in Hwf, Hnz.
      specialize (Hwf t Et). specialize (Hnz t Et).
      unfold token_mask, token_value, token_wf in *.
      destruct (wildcard_token t); simpl in *.
      + apply Hlit. reflexivity.
      + apply negb_true_iff, Z.eqb_neq in Hnz.
        rewrite uchar_small in Hb0 by (apply hex_value_range; exact Hwf).
        contradiction. }
  rewrite (scan_first_clear bits 256 0 0); [reflexivity|lia|exact H0|intros; lia].
Qed.

(** X17: a hybrid string whose tokens are runs of ['?'] or single
    hexadecimal digits other than 0 builds the same signature as the
    byte-mask constructor given, token by token, the value and mask entry 1
    for a hexadecimal token and value and mask entry 0 for a run of ['?'],
    with unknown marker 0. *)
Theorem hybrid_as_masked (s : string) :
  forallb token_wf (tokens_of s) = true ->
  forallb (fun t => wildcard_token t || negb (hex_value t =? 0)) (tokens_of s) = true ->
  memory_signature_hybrid s
    = memory_signature_byte_mask (map token_value (tokens_of s))
                                 (map token_mask (tokens_of s)) 0.
Proof.
  intros Hwf Hnz.
  apply forallb_Forall_true in Hwf. apply forallb_Forall_true in Hnz.
  rewrite memory_signature_hybrid_tokens.
  2:{ eapply Forall_impl; [|exact Hwf]. intros t Ht. apply token_wf_ok. exact Ht. }
  unfold memory_signature_byte_mask, memory_signature_masked.
  rewrite find_wildcard_masked_tokens by assumption.
  cbv beta iota delta [bind]. rewrite !length_map, Nat.eqb_refl. cbn [negb].
  rewrite masked_to_wildcard_tokens by exact Hwf.
  f_equal. f_equal. apply map_ext_in. intros t Ht.
  rewrite Forall_forall in Hwf. unfold token_value.
  apply token_wf_byte. apply Hwf. exact Ht.
Qed.

Lemma hybrid_as_masked_witness :
  forallb token_wf (tokens_of "e ? ?? 5 c") = true /\
  forallb (fun t => wildcard_token t || negb (hex_value t =? 0))
          (tokens_of "e ? ?? 5 c") = true /\
  memory_signature_hybrid "e ? ?? 5 c"
    = memory_signature_byte_mask (map token_value (tokens_of "e ? ?? 5 c"))
                                 (map token_mask (tokens_of "e ? ?? 5 c")) 0 /\
  map token_value (tokens_of "e ? ?? 5 c") = [14; 0; 0; 5; 12] /\
  map token_mask (tokens_of "e ? ?? 5 c") = [1; 0; 0; 1; 1].
Proof.
  split; [reflexivity|]. split; [reflexivity|].
  split; [|split; reflexivity].
  apply (hybrid_as_masked "e ? ?? 5 c"); reflexivity.
Defined.

(** ** Witnesses of the error behaviour of the constructors *)

Lemma masked_longer_pattern_overruns_witness :
  (length [1; 0; 1]%Z < length [17; 18; 19; 20; 21]%Z)%nat /\
  memory_signature_masked [17; 18; 19; 20; 21] [1; 0; 1] 0 = Undef mask_overrun.
Proof.
  split; [simpl; lia|].
  apply (masked_longer_pattern_overruns [17; 18; 19; 20; 21] [1; 0; 1] 0).
  simpl. lia.
Defined.

Lemma masked_shorter_pattern_throws_witness :
  (length [17; 18]%Z < length [1; 0; 1]%Z)%nat /\
  (memory_signature_masked [17; 18] [1; 0; 1] 0 = Throw invalid_argument \/
   memory_signature_masked [17; 18] [1; 0; 1] 0 = Throw range_error).
Proof.
  split; [simpl; lia|].
  apply (masked_shorter_pattern_throws [17; 18] [1; 0; 1] 0). simpl. lia.
Defined.

Lemma masked_all_literal_cover_throws_witness :
  length all_bytes = length (repeat 1 256) /\
  memory_signature_masked all_bytes (repeat 1 256) 0 = Throw range_error.
Proof.
  split; [vm_compute; reflexivity|].
  apply (masked_all_literal_cover_throws all_bytes (repeat 1 256) 0).
  - vm_compute. reflexivity.
  - apply Forall_forall. intros x Hx. apply repeat_spec in Hx. subst x.
    vm_compute. discriminate.
  - intros v Hv. apply in_map_iff. exists v. split; [apply uchar_small; exact Hv|].
    eapply nth_error_In. apply all_bytes_nth. exact Hv.
Defined.

Lemma hybrid_pattern_fits_witness :
  memory_signature_hybrid "1 ?? 3 4" = Ok (mk_signature [1; 0; 3; 4] 0) /\
  (length (_pattern (mk_signature [1; 0; 3; 4]%Z 0%Z))
   <= length (chars "1 ?? 3 4"))%nat.
Proof.
  split; [reflexivity|].
  apply (hybrid_pattern_fits "1 ?? 3 4" (mk_signature [1; 0; 3; 4] 0)).
  reflexivity.
Defined.

(** A mask character with code 128 or more is negative as a plain [char]
    and never equals the marker, an [unsigned char]: the position stays a
    literal. *)
Example string_mask_char_is_signed :
  memory_signature_string_mask [18] (String (ascii_of_nat 200) EmptyString) 200
    = Ok (mk_signature [18] 0).
Proof. reflexivity. Qed.
